(** * BlendingToolKit: a shallow embedding of [btk/utils.py] and
    [btk/get_input_catalog.py]

    The file has two parts.  Part I translates the Python sources into
    executable definitions, one module per source unit.  Part II states and
    proves the properties of those definitions.

    Conventions of the embedding:
    - a Python [int] is a [Z]; positions in arrays are [nat];
    - a [float64] is idealised as an exact rational [Q]: no rounding, no NaN
      and no infinity.  Where numpy would produce NaN (a division by zero, the
      square root of a negative number) the embedding says so explicitly;
    - [np.hypot x y] is compared with a bound [b >= 0] through its square,
      [x*x + y*y <= b*b], since [Q] has no square roots;
    - an exception is a result [Raise e]; numpy's global random generator is
      an explicit state threaded through the calls. *)

From Stdlib Require Import ZArith QArith Qabs List Lia Ascii String Bool.
From stdpp Require Import base list.
Import ListNotations.

(* ===================================================================== *)
(** * Part I: the embedding                                               *)
(* ===================================================================== *)

(** ** Python results *)

Inductive exn : Type :=
| ValueError
| IOError
| Exception (msg : string).

Inductive res (A : Type) : Type :=
| Ok (a : A)
| Raise (e : exn).

Arguments Ok {A} a.
Arguments Raise {A} e.

(** ** numpy helpers on one-dimensional arrays *)

Module Np.

(** [np.where(mask)] for a mask computed element-wise by [p]: the positions
    at which the mask is true, in increasing order. *)
Fixpoint where_from {A} (p : A -> bool) (k : nat) (l : list A) : list nat :=
  match l with
  | [] => []
  | x :: l' =>
      if p x then k :: where_from p (S k) l' else where_from p (S k) l'
  end.

Definition where_ {A} (p : A -> bool) (l : list A) : list nat :=
  where_from p 0 l.

(** [a[q]] for an index array [q] (fancy indexing).  numpy raises
    IndexError on a position out of range; every index array of this
    program comes from [np.where] or [np.random.choice] over the same
    array, so a position out of range contributes nothing here. *)
Definition index {A} (l : list A) (q : list nat) : list A :=
  omap (fun k => l !! k) q.

(** Sum of a float array. *)
Definition sum (l : list Q) : Q := fold_right Qplus 0%Q l.

(** [np.mean]; of an empty array it is NaN (with a warning, no exception):
    the embedding returns 0, and the callers apply it to no element then. *)
Definition mean (l : list Q) : Q :=
  (sum l / inject_Z (Z.of_nat (length l)))%Q.

End Np.

(* --------------------------------------------------------------------- *)
(** ** [get_detection_eff_matrix] (utils.py, lines 461-489)               *)
(* --------------------------------------------------------------------- *)

Module Eff.

(** A row of the detection summary, a numpy array of shape [N, 5]: column 0
    is the number of true objects, column 1 the number of detections; the
    remaining columns are not read by the function. *)
Record summary_row : Type := SummaryRow {
  col0 : Z;
  col1 : Z;
  cols_rest : list Z
}.

Abbreviation summary := (list summary_row) (only parsing).

(** A two-dimensional float array, row major: [m !! j] is row [j]. *)
Abbreviation matrix := (list (list Q)) (only parsing).

(** [np.zeros((r, c))] *)
Definition zeros (r c : nat) : matrix := replicate r (replicate c 0%Q).

(** [m[j, i]] *)
Definition entry (m : matrix) (j i : nat) : option Q :=
  m !! j ≫= (fun row => row !! i).

(** [m[j, i] = v] *)
Definition set_entry (m : matrix) (j i : nat) (v : Q) : matrix :=
  alter (fun row => <[i := v]> row) j m.

(** [len(q)] stored into a float array *)
Definition len_Q {A} (q : list A) : Q := inject_Z (Z.of_nat (length q)).

(** The body of the inner loop, for one [j]:
<<
    if len(q_true) > 0:
        q_det, = np.where(summary_table[q_true, 1] == j)
        eff_matrix[j, i] = len(q_det)
>> *)
Definition inner_step (t : summary) (q_true : list nat) (i : nat)
    (m : matrix) (j : nat) : matrix :=
  if (0 <? length q_true)%nat then
    let q_det :=
      Np.where_ (fun d => (d =? Z.of_nat j)%Z) (col1 <$> Np.index t q_true) in
    set_entry m j i (len_Q q_det)
  else m.

(** The body of the outer loop, for one [i]. *)
Definition outer_step (t : summary) (num : Z) (m : matrix) (i : nat) : matrix :=
  let q_true := Np.where_ (fun r => (col0 r =? Z.of_nat i)%Z) t in
  foldl (inner_step t q_true i) m (seq 0 (Z.to_nat (num + 2))).

(** The two nested loops over [range(0, num + 1)] and [range(0, num + 2)]. *)
Definition tabulate (t : summary) (num : Z) (m : matrix) : matrix :=
  foldl (outer_step t num) m (seq 0 (Z.to_nat (num + 1))).

(** [np.sum(m, axis=0)] for a matrix with [c] columns. *)
Definition sum_axis0 (c : nat) (m : matrix) : list Q :=
  (fun i => Np.sum (omap (fun row => row !! i) m)) <$> seq 0 c.

(** [norm[norm == 0.] = 1] *)
Definition fix_norm (norm : list Q) : list Q :=
  (fun x => if Qeq_bool x 0 then 1%Q else x) <$> norm.

(** [m / norm[np.newaxis, :] * 100.] *)
Definition normalise (m : matrix) (norm : list Q) : matrix :=
  (fun row => zip_with (fun e n => (e / n * 100)%Q) row norm) <$> m.

(** [np.zeros] raises ValueError on a negative dimension. *)
Definition get_detection_eff_matrix (summary_table : summary) (num : Z)
    : res matrix :=
  if (num + 1 <? 0)%Z then Raise ValueError
  else
    let eff_matrix := zeros (Z.to_nat (num + 2)) (Z.to_nat (num + 1)) in
    let eff_matrix := tabulate summary_table num eff_matrix in
    let norm := sum_axis0 (Z.to_nat (num + 1)) eff_matrix in
    let norm := fix_norm norm in
    Ok (normalise eff_matrix norm).

(** The value the two loops store at [j, i] when some row has true count
    [i]. *)
Definition stored (t : summary) (i j : nat) : Q :=
  len_Q (Np.where_ (fun d => (d =? Z.of_nat j)%Z)
           (col1 <$> Np.index t
                       (Np.where_ (fun r => (col0 r =? Z.of_nat i)%Z) t))).

(** *** Specification-side counts *)

(** Number of rows with true count [i] and detected count [j]. *)
Definition count_ij (t : summary) (i j : nat) : nat :=
  length (List.filter
            (fun r => (col0 r =? Z.of_nat i)%Z && (col1 r =? Z.of_nat j)%Z) t).

(** Number of rows with true count [i]. *)
Definition count_true (t : summary) (i : nat) : nat :=
  length (List.filter (fun r => (col0 r =? Z.of_nat i)%Z) t).

(** Number of rows with true count [i] whose detected count is one of the
    matrix's row labels [0 .. rows-1]. *)
Definition count_tabulated (t : summary) (rows : nat) (i : nat) : nat :=
  length (List.filter
            (fun r => (col0 r =? Z.of_nat i)%Z
                      && (0 <=? col1 r)%Z && (col1 r <? Z.of_nat rows)%Z) t).

(** Column [i] of a matrix. *)
Definition column (m : matrix) (i : nat) : list Q :=
  omap (fun row => row !! i) m.

(** Shape of a matrix: [r] rows of [c] entries each. *)
Definition has_shape (r c : nat) (m : matrix) : Prop :=
  length m = r /\ Forall (fun row => length row = c) m.

End Eff.

(* --------------------------------------------------------------------- *)
(** ** numpy's global random generator                                    *)
(* --------------------------------------------------------------------- *)

Module Rng.

(** The state of [np.random]: the raw draws still to come.  Every sequence
    of outcomes the real generator can produce is the image of some state,
    so a statement proved for every state holds for every run. *)
Definition state := nat -> N.

Definition next (g : state) : N * state := (g 0%nat, fun k => g (S k)).

(** A computation that reads the generator and may raise. *)
Definition np (A : Type) : Type := state -> res (A * state).

Definition ret {A} (a : A) : np A := fun g => Ok (a, g).

Definition raise {A} (e : exn) : np A := fun _ => Raise e.

Definition bind {A B} (c : np A) (k : A -> np B) : np B :=
  fun g => match c g with
           | Ok (a, g') => k a g'
           | Raise e => Raise e
           end.

Definition lift {A} (r : res A) : np A :=
  fun g => match r with Ok a => Ok (a, g) | Raise e => Raise e end.

(** [np.random.randint(low, high)]: uniform in [low, high), ValueError
    when the interval is empty. *)
Definition randint (low high : Z) : np Z :=
  fun g =>
    if (high <=? low)%Z then Raise ValueError
    else let '(r, g') := next g in
         Ok ((low + Z.of_N r mod (high - low))%Z, g').

(** [np.random.random()]: a float in [0, 1) with 53 random bits. *)
Definition two53 : positive := 9007199254740992.

Definition random : np Q :=
  fun g => let '(r, g') := next g in
           Ok (Z.of_N (r mod Npos two53) # two53, g').

(** One element of [a], uniformly. *)
Definition pick {A} (a : list A) : np (option A) :=
  fun g => let '(r, g') := next g in
           Ok (a !! N.to_nat (r mod N.of_nat (length a)), g').

(** [np.random.choice(a)] with [size=None]: one element; ValueError on an
    empty array. *)
Definition choice1 {A} (a : list A) : np A :=
  fun g => match pick a g with
           | Ok (Some x, g') => Ok (x, g')
           | _ => Raise ValueError
           end.

Fixpoint choice_n {A} (a : list A) (n : nat) : np (list A) :=
  match n with
  | O => ret []
  | S n' => bind (choice1 a) (fun x =>
            bind (choice_n a n') (fun xs => ret (x :: xs)))
  end.

(** [np.random.choice(a, size=size)], with replacement: ValueError on a
    negative size, and on an empty array unless no sample is taken. *)
Definition choice {A} (a : list A) (size : Z) : np (list A) :=
  if (size <? 0)%Z then raise ValueError else choice_n a (Z.to_nat size).

Fixpoint draw_distinct (pool : list nat) (n : nat) : np (list nat) :=
  match n with
  | O => ret []
  | S n' =>
      fun g =>
        let '(r, g') := next g in
        let p := N.to_nat (r mod N.of_nat (length pool)) in
        match pool !! p with
        | Some x =>
            bind (draw_distinct (delete p pool) n') (fun xs => ret (x :: xs)) g'
        | None => Raise ValueError
        end
  end.

(** [np.random.choice(range(n), size, replace=False)]: [size] distinct
    positions below [n]; ValueError on a negative size or when more
    positions are asked for than there are. *)
Definition choice_no_replace (n : nat) (size : Z) : np (list nat) :=
  if (size <? 0)%Z then raise ValueError
  else if (Z.of_nat n <? size)%Z then raise ValueError
  else draw_distinct (seq 0 n) (Z.to_nat size).

End Rng.

(** The generator monad uses stdpp's [x ← c; k] notation. *)
#[global] Instance np_ret : MRet Rng.np := @Rng.ret.
#[global] Instance np_bind : MBind Rng.np := fun A B k c => Rng.bind c k.

(* --------------------------------------------------------------------- *)
(** ** Catalogs and the selection and sampling functions of utils.py      *)
(* --------------------------------------------------------------------- *)

Module Utils.

(** A row of a CatSim-like catalog (an astropy table), with the columns the
    functions below read or write. *)
Record galaxy : Type := Galaxy {
  galtileid : Z;
  ra : Q;
  dec : Q;
  a_d : Q;
  a_b : Q;
  fluxnorm_bulge : Q;
  fluxnorm_disk : Q;
  i_ab : Q
}.

(** An astropy table of galaxies. *)
Abbreviation table := (list galaxy) (only parsing).

Definition set_ra (v : Q) (g : galaxy) : galaxy :=
  Galaxy (galtileid g) v (dec g) (a_d g) (a_b g)
         (fluxnorm_bulge g) (fluxnorm_disk g) (i_ab g).

Definition set_dec (v : Q) (g : galaxy) : galaxy :=
  Galaxy (galtileid g) (ra g) v (a_d g) (a_b g)
         (fluxnorm_bulge g) (fluxnorm_disk g) (i_ab g).

(** A row of the pre-run WLD catalog. *)
Record wld_row : Type := WldRow {
  grp_id : Z;
  grp_size : Z;
  db_id : Z
}.

(** The input parameters [Args].  [wld_catalog_name] is an attribute that
    may be absent ([hasattr]). *)
Record args : Type := Args_ {
  catalog_name : string;
  verbose : bool;
  max_number : Z;
  stamp_size : Q;
  pixel_scale : Q;
  wld_catalog_name : option string
}.

(** The bound [maxshift] handed to [get_random_center_shift].  The basic
    sampler computes [stamp_size/30 * number_of_objects**0.5]; the square
    root is kept symbolic: the value is [shift_coeff * sqrt shift_radicand]. *)
Record maxshift_t : Type := MaxShift {
  shift_coeff : Q;
  shift_radicand : Z
}.

(** [hypot(x, y)**2] *)
Definition hypot_sq (x y : Q) : Q := (x * x + y * y)%Q.

(** [col += d] on a table column: element-wise when the lengths agree, a
    broadcast when [d] has one element, ValueError otherwise. *)
Definition iadd (col d : list Q) : res (list Q) :=
  if (length d =? length col)%nat then Ok (zip_with Qplus col d)
  else match d with
       | [x] => Ok ((fun c => (c + x)%Q) <$> col)
       | _ => Raise ValueError
       end.

(** [astropy.table.vstack]: the rows of the tables, in order; an empty list
    of tables is an error. *)
Definition vstack (ts : list table) : res table :=
  match ts with
  | [] => Raise ValueError
  | _ => Ok (concat ts)
  end.

(** *** [basic_selection_function] (lines 267-285) *)

(** [f = fluxnorm_bulge/(fluxnorm_disk+fluxnorm_bulge)] *)
Definition bulge_fraction (g : galaxy) : Q :=
  (fluxnorm_bulge g / (fluxnorm_disk g + fluxnorm_bulge g))%Q.

(** [r_sec] is a number (not NaN) when the total flux is not zero and both
    [(1-f)**0.5] and [f**0.5] are roots of non-negative numbers. *)
Definition r_sec_defined (g : galaxy) : bool :=
  negb (Qeq_bool (fluxnorm_disk g + fluxnorm_bulge g) 0)
  && Qle_bool 0 (bulge_fraction g) && Qle_bool (bulge_fraction g) 1.

(** [r_sec**2], for
    [r_sec = hypot(a_d*(1-f)**0.5*4.66, a_b*f**0.5*1.46)]. *)
Definition r_sec_sq (g : galaxy) : Q :=
  let f := bulge_fraction g in
  (a_d g * a_d g * (1 - f) * ((466 # 100) * (466 # 100))
   + a_b g * a_b g * f * ((146 # 100) * (146 # 100)))%Q.

(** [(r_sec <= 4) & (catalog['i_ab'] <= 27)]; a comparison with NaN is
    false. *)
Definition selected (g : galaxy) : bool :=
  r_sec_defined g && Qle_bool (r_sec_sq g) 16 && Qle_bool (i_ab g) 27.

Definition basic_selection_function (catalog : table) : table :=
  let q := Np.where_ selected catalog in
  Np.index catalog q.

(** Two rows describe the same galaxy: they agree on every column but
    the centre ([ra], [dec]). *)
Definition same_galaxy (row src : galaxy) : Prop :=
  row = set_dec (dec row) (set_ra (ra row) src).

(** *** The sampling functions *)

Section Sampling.

(** [btk.create_blend_generator.get_random_center_shift(Args, n, maxshift)]
    is not part of the sources at hand: it is a parameter.  It reads the
    random generator and returns the two arrays [dx] and [dy]. *)
Variable get_random_center_shift :
  args -> Z -> maxshift_t -> Rng.np (list Q * list Q).

(** [astropy.table.Table.read(name, format='fits')] for the WLD catalog:
    the file system is a parameter. *)
Variable read_wld : string -> res (list wld_row).

(** [cond = (a <= 2) & (a > 0.2)] with [a = np.hypot(a_d, a_b)] *)
Definition size_cond (g : galaxy) : bool :=
  let a2 := hypot_sq (a_d g) (a_b g) in
  Qle_bool a2 4 && negb (Qle_bool a2 (4 # 100)).

(** [blend_catalog['ra'] += dx; blend_catalog['dec'] += dy] *)
Definition shift_centers (t : table) (dx dy : list Q) : res table :=
  match iadd (ra <$> t) dx, iadd (dec <$> t) dy with
  | Ok ras, Ok decs =>
      Ok (zip_with (fun g rd => set_dec (snd rd) (set_ra (fst rd) g))
                   t (zip ras decs))
  | Raise e, _ => Raise e
  | _, Raise e => Raise e
  end.

(** Lines 288-312. *)
Definition basic_sampling_function (Args : args) (catalog : table)
    : Rng.np table :=
  number_of_objects ← Rng.randint 0 (max_number Args);
  let cond := size_cond in
  let q_bright :=
    Np.where_ (fun g => cond g && Qle_bool (i_ab g) 24) catalog in
  u ← Rng.random;
  let q :=
    if Qle_bool (9 # 10) u
    then Np.where_ (fun g => cond g && negb (Qle_bool 28 (i_ab g))) catalog
    else Np.where_ (fun g => cond g && Qle_bool (i_ab g) (253 # 10)) catalog in
  first ← Rng.choice q_bright 1;
  others ← Rng.choice q number_of_objects;
  blend_catalog ← Rng.lift
    (vstack [Np.index catalog first; Np.index catalog others]);
  let blend_catalog := (fun g => set_dec 0 (set_ra 0 g)) <$> blend_catalog in
  let maxshift := MaxShift (stamp_size Args / 30) number_of_objects in
  '(dx, dy) ← get_random_center_shift Args (number_of_objects + 1) maxshift;
  Rng.lift (shift_centers blend_catalog dx dy).

(** [np.unique]: the distinct values, sorted. *)
Fixpoint insert_unique (x : Z) (l : list Z) : list Z :=
  match l with
  | [] => [x]
  | y :: l' =>
      if (x <? y)%Z then x :: l
      else if (x =? y)%Z then l
      else y :: insert_unique x l'
  end.

Definition unique (l : list Z) : list Z := fold_right insert_unique [] l.

(** [np.abs(x) < stamp_size / 2. - 3] *)
Definition inside (Args : args) (x : Q) : bool :=
  negb (Qle_bool (stamp_size Args / 2 - 3) (Qabs x)).

(** [np.unique(wld_catalog['grp_id'][wld_catalog['grp_size'] >= 2])] *)
Definition group_ids (wld_catalog : list wld_row) : list Z :=
  unique (grp_id <$> List.filter (fun w => (2 <=? grp_size w)%Z) wld_catalog).

(** [[catalog[catalog['galtileid'] == i] for i in ids]] with
    [ids = wld_catalog['db_id'][wld_catalog['grp_id'] == group_id]] *)
Definition group_members (wld_catalog : list wld_row) (group_id : Z)
    (catalog : table) : list table :=
  let ids :=
    db_id <$> List.filter (fun w => (grp_id w =? group_id)%Z) wld_catalog in
  (fun i => List.filter (fun g => (galtileid g =? i)%Z) catalog) <$> ids.

(** Lines 330-351: the galaxies of a randomly chosen group, centred on the
    stamp and shifted by a small random amount. *)
Definition centered_group (Args : args) (name : string) (catalog : table)
    : Rng.np table :=
  wld_catalog ← Rng.lift (read_wld name);
  group_id ← Rng.choice1 (group_ids wld_catalog);
  blend_catalog ← Rng.lift (vstack (group_members wld_catalog group_id catalog));
  let mean_ra := Np.mean (ra <$> blend_catalog) in
  let blend_catalog := (fun g => set_ra (ra g - mean_ra) g) <$> blend_catalog in
  let mean_dec := Np.mean (dec <$> blend_catalog) in
  let blend_catalog := (fun g => set_dec (dec g - mean_dec) g) <$> blend_catalog in
  let blend_catalog := (fun g => set_ra (ra g * 3600) g) <$> blend_catalog in
  let blend_catalog := (fun g => set_dec (dec g * 3600) g) <$> blend_catalog in
  '(dx, dy) ← get_random_center_shift Args 1
                (MaxShift (3 * pixel_scale Args) 1);
  Rng.lift (shift_centers blend_catalog dx dy).

(** [cond1 & cond2] *)
Definition in_stamp (Args : args) (g : galaxy) : bool :=
  inside Args (ra g) && inside Args (dec g).

(** Lines 315-362. *)
Definition group_sampling_function (Args : args) (catalog : table)
    : Rng.np table :=
  match wld_catalog_name Args with
  | None =>
      Rng.raise (Exception
        "A pre-run WLD catalog  name should be input as Args.wld_catalog_name")
  | Some name =>
      blend_catalog ← centered_group Args name catalog;
      let no_boundary := List.filter (in_stamp Args) blend_catalog in
      if (length no_boundary =? 0)%nat then mret no_boundary
      else
        let num := Z.min (Z.of_nat (length no_boundary)) (max_number Args) in
        select ← Rng.choice_no_replace (length no_boundary) num;
        mret (Np.index no_boundary select)
  end.

(** What the call sites need of [get_random_center_shift]: it returns, and
    [dx] and [dy] have as many entries as were asked for. *)
Definition shift_returns : Prop :=
  forall (Args : args) (n : Z) (maxshift : maxshift_t) (g : Rng.state),
    exists dx dy g',
      get_random_center_shift Args n maxshift g = Ok ((dx, dy), g') /\
      length dx = Z.to_nat n /\ length dy = Z.to_nat n.

End Sampling.

End Utils.

(* --------------------------------------------------------------------- *)
(** ** [load_catalog] (get_input_catalog.py)                              *)
(* --------------------------------------------------------------------- *)

Module GetInputCatalog.

Import Utils.

Local Open Scope string_scope.

(** [s.rfind(c)]: the last position of [c] in [s], or -1. *)
Fixpoint rfind_from (c : ascii) (s : string) (k : Z) (found : Z) : Z :=
  match s with
  | EmptyString => found
  | String x s' =>
      rfind_from c s' (k + 1) (if Ascii.eqb x c then k else found)
  end.

Definition rfind (c : ascii) (s : string) : Z := rfind_from c s 0 (-1).

(** [s[a:b]] for [0 <= a]. *)
Definition slice (s : string) (a b : Z) : string :=
  substring (Z.to_nat a) (Z.to_nat (b - a)) s.

(** Some character of [s[a:b]] differs from [c]. *)
Definition some_other (c : ascii) (s : string) (a b : Z) : bool :=
  existsb (fun x => negb (Ascii.eqb x c)) (list_ascii_of_string (slice s a b)).

(** [os.path.splitext] (posixpath): the extension starts at the last dot
    of the last path component, leading dots of that component apart. *)
Definition splitext (p : string) : string * string :=
  let sepIndex := rfind "/"%char p in
  let dotIndex := rfind "."%char p in
  let n := Z.of_nat (String.length p) in
  if (sepIndex <? dotIndex)%Z && some_other "."%char p (sepIndex + 1) dotIndex
  then (slice p 0 dotIndex, slice p dotIndex n)
  else (p, "").

(** The [format] argument of [astropy.table.Table.read]. *)
Inductive table_format : Type := fits | ascii_basic.

Section Load.

(** The catalog's table type, and the file system as
    [astropy.table.Table.read] sees it, are parameters. *)
Variable tbl : Type.
Variable table_read : string -> table_format -> res tbl.

(** The function returns its result together with the lines it printed. *)
Definition load_catalog (Args : args)
    (selection_function : option (tbl -> res tbl))
    : list string * res tbl :=
  let '(name, ext) := splitext (catalog_name Args) in
  let read :=
    if String.eqb ext ".fits"
    then table_read (catalog_name Args) fits
    else table_read (catalog_name Args) ascii_basic in
  match read with
  | Raise e => ([], Raise e)
  | Ok table =>
      let out1 := if verbose Args then ["Catalog loaded"] else [] in
      match selection_function with
      | Some f =>
          let out2 :=
            if verbose Args
            then ["Selection criterion applied to input catalog"] else [] in
          ((out1 ++ out2)%list, f table)
      | None => (out1, Ok table)
      end
  end.

End Load.

End GetInputCatalog.

(* --------------------------------------------------------------------- *)
(** ** The measurement classes of utils.py                                *)
(* --------------------------------------------------------------------- *)

Module Measure.

(** The four subclasses of [measure.Measurement_params] in utils.py. *)
Inductive adapter : Type :=
| SEP_params
| Stack_params
| Scarlet_params
| Basic_measure_params.

Inductive method : Type :=
| get_centers
| get_deblended_images
| make_measurement
| get_psf_sky
| scarlet_initialize.


#[global] Instance method_eq_dec : EqDecision method.
Proof. solve_decision. Defined.

#[global] Instance adapter_eq_dec : EqDecision adapter.
Proof. solve_decision. Defined.



End Measure.

(* --------------------------------------------------------------------- *)
(** ** The rendering generator ([btk.draw_blends.generate])               *)
(* --------------------------------------------------------------------- *)

Module DrawBlends.

Section Generate.

(** A blend catalog with its observing conditions, the rendered blend image
    and the rendered isolated images. *)
Variables entry_t blend_image_t isolated_image_t : Type.

(** Modelled from the spec: [btk/draw_blends.py] is not part of the sources
    at hand (only its test, tests/test_draw.py, is).  The spec says the
    generator "turns blend catalogs into multi-band pixel arrays using a
    survey-simulation library, optionally in parallel worker processes",
    "with an optional parallel map over a library-provided process pool".
    Rendering one entry of the batch is a function of that entry (the test
    compares the two modes with noise switched off). *)
Variable render : entry_t -> blend_image_t * isolated_image_t.

(** The batch cut into consecutive chunks of [k] entries. *)
Fixpoint chunks_fuel {A} (fuel k : nat) (l : list A) : list (list A) :=
  match fuel with
  | O => []
  | S fuel' =>
      match l with
      | [] => []
      | _ => take k l :: chunks_fuel fuel' k (drop k l)
      end
  end.

Definition chunks {A} (k : nat) (l : list A) : list (list A) :=
  chunks_fuel (length l) k l.

(** Modelled from the spec: the process pool's [map].  As
    [multiprocessing.Pool.map] does, it cuts the input into chunks of
    [ceil(len / (4 * processes))] entries, has a worker apply [f] to every
    entry of a chunk, and joins the chunks' results in the order of the
    input.  A pool of no process is a ValueError. *)
Definition pool_map {A B} (processes : nat) (f : A -> B) (l : list A)
    : res (list B) :=
  if (processes =? 0)%nat then Raise ValueError
  else
    let chunksize :=
      (length l `div` (4 * processes)
       + (if (length l `mod` (4 * processes) =? 0) then 0 else 1))%nat in
    Ok (concat (map (map f) (chunks chunksize l))).

(** What one [next] of the generator yields (the arrays of interest). *)
Record output : Type := Output {
  blend_images : list blend_image_t;
  isolated_images : list isolated_image_t
}.

(** Modelled from the spec: one batch drawn from the generator, serially
    or through the pool. *)
Definition generate (multiprocessing : bool) (cpus : nat)
    (batch : list entry_t) : res output :=
  let results :=
    if multiprocessing then pool_map cpus render batch
    else Ok (map render batch) in
  match results with
  | Ok rs => Ok (Output (fst <$> rs) (snd <$> rs))
  | Raise e => Raise e
  end.

End Generate.

End DrawBlends.

(* --------------------------------------------------------------------- *)
(** ** [make_true_seg_map] (utils.py, lines 250-264)                      *)
(* --------------------------------------------------------------------- *)

Module SegMap.

(** An image: a two-dimensional float array, row major. *)
Abbreviation image := (list (list Q)) (only parsing).

(** [np.zeros_like(image)] *)
Definition zeros_like (image : image) : list (list Q) :=
  (fun row : list Q => (fun _ => 0%Q) <$> row) <$> image.

(** [m[mask] = v] for a boolean mask computed pixel by pixel from the
    image: the pixels of [m] whose image pixel passes [mask] become [v]. *)
Definition assign_where (mask : Q -> bool) (v : Q) (image m : list (list Q))
    : list (list Q) :=
  zip_with (zip_with (fun p old => if mask p then v else old)) image m.

(** [m.astype(np.bool)]: a pixel is true when it is not zero. *)
Definition astype_bool (m : list (list Q)) : list (list bool) :=
  (fun row : list Q => (fun x => negb (Qeq_bool x 0)) <$> row) <$> m.

Definition make_true_seg_map (image : image) (threshold : Q)
    : list (list bool) :=
  let seg_map := zeros_like image in
  let seg_map :=
    assign_where (fun p => negb (Qle_bool threshold p)) 0 image seg_map in
  let seg_map := assign_where (fun p => Qle_bool threshold p) 1 image seg_map in
  astype_bool seg_map.

End SegMap.

(* --------------------------------------------------------------------- *)
(** ** [Scarlet_params.scarlet_initialize] (utils.py, lines 181-211)      *)
(* --------------------------------------------------------------------- *)

Module Scarlet.

(** What [scarlet.ExtendedSource(...)] does: it builds a source, raises
    [scarlet.source.SourceInitError], or raises something else. *)
Inductive init_result (source : Type) : Type :=
| Built (s : source)
| SourceInitError
| InitRaises (e : exn).

Arguments Built {source} s.
Arguments SourceInitError {source}.
Arguments InitRaises {source} e.

Section Initialize.

(** The scarlet library is a parameter: the images and background are fixed,
    [ExtendedSource center] is [scarlet.ExtendedSource(center, images, bg_rms)],
    and [Blend_fit sources] is
    [scarlet.Blend(sources).set_data(images, bg_rms=bg_rms)] followed by
    [blend.fit(iters, e_rel=e_rel)]. *)
Variables source blend : Type.
Variable ExtendedSource : Q * Q -> init_result source.
Variable Blend_fit : list source -> res blend.

(** The state of the loop: the sources built so far, the rejected
    positions, and the positions reported by [print], each in order. *)
Record loop_state : Type := LoopState {
  sources : list source;
  rejected_sources : list nat;
  printed : list nat
}.

(** One round of [for n, peak in enumerate(peaks)]; a peak is [(x, y)] and
    the source is initialised at [(peak[1], peak[0])]. *)
Definition init_step (st : loop_state) (n : nat) (peak : Q * Q)
    : res loop_state :=
  match ExtendedSource (snd peak, fst peak) with
  | Built result =>
      Ok (LoopState (sources st ++ [result]) (rejected_sources st) (printed st))
  | SourceInitError =>
      Ok (LoopState (sources st) (rejected_sources st ++ [n])
                    (printed st ++ [n]))
  | InitRaises e => Raise e
  end.

Fixpoint init_loop (st : loop_state) (n : nat) (peaks : list (Q * Q))
    : res loop_state :=
  match peaks with
  | [] => Ok st
  | peak :: peaks' =>
      match init_step st n peak with
      | Ok st' => init_loop st' (S n) peaks'
      | Raise e => Raise e
      end
  end.

(** The function returns [(blend, rejected_sources)]; the positions it
    printed are returned beside them. *)
Definition scarlet_initialize (peaks : list (Q * Q))
    : res (blend * list nat * list nat) :=
  match init_loop (LoopState [] [] []) 0 peaks with
  | Ok st =>
      match Blend_fit (sources st) with
      | Ok b => Ok (b, rejected_sources st, printed st)
      | Raise e => Raise e
      end
  | Raise e => Raise e
  end.

(** The source built at a peak, when one is. *)
Definition built_at (peak : Q * Q) : option source :=
  match ExtendedSource (snd peak, fst peak) with
  | Built s => Some s
  | _ => None
  end.

(** The peak has no flux: [ExtendedSource] raises [SourceInitError]. *)
Definition no_flux (peak : Q * Q) : bool :=
  match ExtendedSource (snd peak, fst peak) with
  | SourceInitError => true
  | _ => false
  end.

End Initialize.

End Scarlet.

(* --------------------------------------------------------------------- *)
(** ** [get_detections] of the two metric classes (lines 390-458)         *)
(* --------------------------------------------------------------------- *)

Module Metrics.

(** The failures of the two methods. [LookupError] stands for the
    IndexError or KeyError of a subscript that finds nothing. *)
Inductive failure : Type :=
| StopIteration
| LookupError
| TypeError.

Inductive outcome (A : Type) : Type :=
| Returns (a : A)
| Fails (f : failure).

Arguments Returns {A} a.
Arguments Fails {A} f.

(** A table with the columns [dx] and [dy], one row per centre. *)
Abbreviation centers := (list (Q * Q)) (only parsing).



(** The loop [for i in range(len(true_tables))] of both methods, with
    [detect i] the table built in round [i]. *)
Fixpoint detect_loop (detect : nat -> outcome centers) (rounds : list nat)
    (detected_tables : list centers) : outcome (list centers) :=
  match rounds with
  | [] => Returns detected_tables
  | i :: rounds' =>
      match detect i with
      | Returns t => detect_loop detect rounds' (detected_tables ++ [t])
      | Fails f => Fails f
      end
  end.

Section BasicMetric.

(** The blend catalogs of the batch are of any type. *)
Variable true_table : Type.


(** A row of the measurement catalog of the LSST pipeline, with the two
    columns read here. *)
Record stack_row : Type := StackRow {
  base_NaiveCentroid_x : Q;
  base_NaiveCentroid_y : Q
}.

(** [np.stack([cat[i]['base_NaiveCentroid_x'],
               cat[i]['base_NaiveCentroid_y']], axis=1)];
    [cat[i]] is None when [make_measurement] returned None. *)
Definition centroids_of (cat : list (option (list stack_row))) (i : nat)
    : outcome (list (Q * Q)) :=
  match cat !! i with
  | None => Fails LookupError
  | Some None => Fails TypeError
  | Some (Some rows) =>
      Returns ((fun r => (base_NaiveCentroid_x r, base_NaiveCentroid_y r))
                 <$> rows)
  end.

(** [Stack_metric_params.get_detections] *)
Definition stack_get_detections
    (meas : option (list true_table * list (option (list stack_row))))
    : outcome (list true_table * list centers) :=
  match meas with
  | None => Fails StopIteration
  | Some (true_tables, cat) =>
      match detect_loop (centroids_of cat) (seq 0 (length true_tables)) []
      with
      | Returns detected_tables => Returns (true_tables, detected_tables)
      | Fails f => Fails f
      end
  end.

End BasicMetric.

End Metrics.

(* --------------------------------------------------------------------- *)
(** ** Rows of a detection summary the efficiency matrix tabulates        *)
(* --------------------------------------------------------------------- *)

Module EffRows.

(** The row's true count is a column label [0 .. num] and its detected
    count a row label [0 .. num+1] of the matrix. *)
Definition tabulated (num : Z) (r : Eff.summary_row) : bool :=
  (0 <=? Eff.col0 r)%Z && (Eff.col0 r <=? num)%Z
  && (0 <=? Eff.col1 r)%Z && (Eff.col1 r <=? num + 1)%Z.

End EffRows.

(* --------------------------------------------------------------------- *)
(** ** Sample inputs                                                      *)
(* --------------------------------------------------------------------- *)

Module Sample.

Import Utils.

(** An instance of [get_random_center_shift] that reads no random number
    and shifts every centre by (1/2, -1/4). *)
Definition fixed_shift (Args : args) (n : Z) (maxshift : maxshift_t)
    : Rng.np (list Q * list Q) :=
  mret (replicate (Z.to_nat n) (1 # 2), replicate (Z.to_nat n) (-1 # 4))%Q.

(** A generator whose every raw draw is [r]. *)
Definition constant (r : N) : Rng.state := fun _ => r.

(** The default parameters: blends of at most two objects on a stamp of
    24 arcseconds. *)
Definition default_args : args :=
  Args_ "sample_input_catalog.fits"%string false 2 24%Q (2 # 10)%Q
        (Some "wld.fits"%string).

(** A bright compact galaxy and a faint one. *)
Definition bright : galaxy :=
  Galaxy 10 (1 # 100) (2 # 100) (1 # 2) (1 # 2) 1 1 22%Q.
Definition faint : galaxy :=
  Galaxy 11 (37 # 3600) (2 # 100) (1 # 2) (1 # 3) 1 3 25%Q.

Definition two_galaxies : table := [bright; faint].

(** A WLD catalog in which the two galaxies form group 7. *)
Definition wld_pair : list wld_row := [WldRow 7 2 10; WldRow 7 2 11].

(** A WLD catalog of isolated galaxies only. *)
Definition wld_isolated : list wld_row := [WldRow 7 1 10; WldRow 8 1 11].

(** The same two galaxies one degree apart: centred on the stamp, both
    fall outside of it. *)
Definition far_apart : table :=
  [Galaxy 10 0 0 (1 # 2) (1 # 2) 1 1 22%Q;
   Galaxy 11 1 0 (1 # 2) (1 # 3) 1 3 25%Q].

(** Parameters with a negative [max_number]. *)
Definition negative_args : args :=
  Args_ "sample_input_catalog.fits"%string false (-1) 24%Q (2 # 10)%Q
        (Some "wld.fits"%string).

Definition read_pair (name : string) : res (list wld_row) := Ok wld_pair.
Definition read_isolated (name : string) : res (list wld_row) :=
  Ok wld_isolated.

End Sample.

(* ===================================================================== *)
(** * Part II: properties                                                 *)
(* ===================================================================== *)

(** ** numpy helpers *)

Section NpFacts.

Context {A : Type}.
Implicit Types (p : A -> bool) (l : list A).

Lemma where_from_index p l pre :
  omap (fun k => (pre ++ l) !! k) (Np.where_from p (length pre) l)
  = List.filter p l.
Proof.
  revert pre. induction l as [|x l IH]; intros pre; [done|].
  assert (Hshift : omap (fun k => (pre ++ x :: l) !! k)
                        (Np.where_from p (S (length pre)) l)
                   = List.filter p l).
  { specialize (IH (pre ++ [x])).
    rewrite <- (assoc_L (++)) in IH. simpl in IH.
    rewrite length_app, Nat.add_1_r in IH. exact IH. }
  simpl. destruct (p x); [|exact Hshift].
  cbn [omap list_omap]. rewrite list_lookup_middle by done.
  f_equal. exact Hshift.
Qed.

(** Indexing an array by the positions [np.where] found is filtering it. *)
Lemma index_where p l : Np.index l (Np.where_ p l) = List.filter p l.
Proof. exact (where_from_index p l []). Qed.

Lemma length_where_from p l k :
  length (Np.where_from p k l) = length (List.filter p l).
Proof.
  revert k. induction l as [|x l IH]; intros k; [done|].
  simpl. destruct (p x); simpl; by rewrite IH.
Qed.

Lemma length_where p l : length (Np.where_ p l) = length (List.filter p l).
Proof. apply length_where_from. Qed.

Lemma where_from_bounds p l k i :
  i ∈ Np.where_from p k l -> (k <= i < k + length l)%nat.
Proof.
  revert k. induction l as [|x l IH]; intros k; simpl.
  - by intros ?%elem_of_nil.
  - destruct (p x).
    + intros [->|Hi%IH]%elem_of_cons; lia.
    + intros Hi%IH. lia.
Qed.

(** Every position found by [np.where] holds an element that passes. *)
Lemma where_lookup p l i :
  i ∈ Np.where_ p l -> exists x, l !! i = Some x /\ p x = true.
Proof.
  unfold Np.where_. intros Hi.
  assert (Hgen : forall pre k, k = length pre ->
            i ∈ Np.where_from p k l ->
            exists x, (pre ++ l) !! i = Some x /\ p x = true).
  { clear Hi. induction l as [|x l IH]; intros pre k ->; simpl.
    - by intros ?%elem_of_nil.
    - assert (Htail : i ∈ Np.where_from p (S (length pre)) l ->
                exists y, (pre ++ x :: l) !! i = Some y /\ p y = true).
      { intros Hi. specialize (IH (pre ++ [x]) (S (length pre))).
        rewrite <- (assoc_L (++)) in IH. simpl in IH. apply IH; [|done].
        rewrite length_app. simpl. lia. }
      destruct (p x) eqn:Hpx; [|done].
      intros [->|Hi]%elem_of_cons; [|by apply Htail].
      exists x. by rewrite list_lookup_middle. }
  exact (Hgen [] 0%nat eq_refl Hi).
Qed.

End NpFacts.

(** ** The detection efficiency matrix *)

Section EffFacts.

Import Eff.

Implicit Types (m : matrix) (t : summary) (r c i j : nat).

Lemma zeros_shape r c : has_shape r c (zeros r c).
Proof.
  split; [apply length_replicate|].
  apply Forall_replicate, length_replicate.
Qed.

Lemma entry_zeros r c j i :
  (j < r)%nat -> (i < c)%nat -> entry (zeros r c) j i = Some 0%Q.
Proof.
  intros Hj Hi. unfold entry, zeros.
  rewrite lookup_replicate_2 by done. simpl. by apply lookup_replicate_2.
Qed.

Lemma set_entry_shape r c m j i v :
  has_shape r c m -> has_shape r c (set_entry m j i v).
Proof.
  intros [Hr Hc]. split; unfold set_entry.
  - by rewrite length_alter.
  - apply Forall_alter; [done|]. intros row _ Hlen.
    by rewrite length_insert.
Qed.

Lemma entry_is_Some r c m j i :
  has_shape r c m -> (j < r)%nat -> (i < c)%nat -> is_Some (entry m j i).
Proof.
  intros [Hr Hc] Hj Hi. unfold entry.
  destruct (lookup_lt_is_Some_2 m j) as [row Hrow]; [lia|].
  rewrite Hrow. simpl. apply lookup_lt_is_Some_2.
  rewrite Forall_forall in Hc. rewrite (Hc row); [done|].
  eapply list_elem_of_lookup_2, Hrow.
Qed.

Lemma entry_set_eq r c m j i v :
  has_shape r c m -> (j < r)%nat -> (i < c)%nat ->
  entry (set_entry m j i v) j i = Some v.
Proof.
  intros Hs Hj Hi.
  destruct (entry_is_Some r c m j i Hs Hj Hi) as [old Hold].
  unfold entry, set_entry in *. rewrite list_lookup_alter.
  rewrite decide_True by done.
  destruct (m !! j) as [row|]; [|done]. simpl in *.
  apply list_lookup_insert_eq. by eapply lookup_lt_Some.
Qed.

Lemma entry_set_ne m j i v j' i' :
  j' <> j \/ i' <> i -> entry (set_entry m j i v) j' i' = entry m j' i'.
Proof.
  intros Hne. unfold entry, set_entry. rewrite list_lookup_alter.
  destruct (decide (j = j')) as [->|]; [|done].
  destruct (m !! j') as [row|]; [|done]. simpl.
  apply list_lookup_insert_ne. destruct Hne; congruence.
Qed.

Lemma length_filter_fmap_filter {A B} (g : A -> B) (p : B -> bool)
    (q : A -> bool) (l : list A) :
  length (List.filter p (g <$> List.filter q l))
  = length (List.filter (fun x => q x && p (g x)) l).
Proof.
  induction l as [|x l IH]; [done|].
  cbn [List.filter]. destruct (q x); cbn [andb]; [|exact IH].
  rewrite fmap_cons. cbn [List.filter].
  destruct (p (g x)); cbn [length]; by rewrite IH.
Qed.

Lemma stored_count t i j : stored t i j = inject_Z (Z.of_nat (count_ij t i j)).
Proof.
  unfold stored, len_Q, count_ij. do 2 f_equal.
  rewrite length_where, index_where.
  apply (length_filter_fmap_filter col1).
Qed.

Lemma count_ij_le_true t i j : (count_ij t i j <= count_true t i)%nat.
Proof.
  unfold count_ij, count_true. induction t as [|x t IH]; [done|]. simpl.
  destruct (col0 x =? Z.of_nat i)%Z, (col1 x =? Z.of_nat j)%Z; simpl; lia.
Qed.

(** The inner loop writes column [i] of the rows it visits, when some row
    of the summary has true count [i], and nothing else. *)
Lemma inner_loop t q i r c js :
  (i < c)%nat -> (forall j, j ∈ js -> (j < r)%nat) ->
  forall m, has_shape r c m ->
    let m' := foldl (inner_step t q i) m js in
    has_shape r c m' /\
    forall j' i',
      entry m' j' i' =
        if decide (i' = i /\ j' ∈ js /\ q <> [])
        then Some (len_Q (Np.where_ (fun d => (d =? Z.of_nat j')%Z)
                            (col1 <$> Np.index t q)))
        else entry m j' i'.
Proof.
  intros Hi. induction js as [|j js IH]; intros Hjs m Hm; simpl.
  - split; [done|]. intros j' i'. rewrite decide_False; [done|].
    intros (_ & ?%elem_of_nil & _). done.
  - assert (Hstep : has_shape r c (inner_step t q i m j)).
    { unfold inner_step. destruct (0 <? length q)%nat; [|done].
      by apply set_entry_shape. }
    destruct (IH (fun k Hk => Hjs k (list_elem_of_further _ _ _ Hk))
                 _ Hstep) as [Hshape Hent].
    split; [exact Hshape|]. intros j' i'. rewrite Hent.
    assert (Hj : (j < r)%nat) by (apply Hjs; left).
    destruct (decide (i' = i /\ j' ∈ js /\ q <> [])) as [(-> & Hin & Hq)|Hn].
    + rewrite decide_True; [done|]. repeat split; [by right|done].
    + destruct (decide (i' = i /\ j' ∈ j :: js /\ q <> []))
        as [(-> & Hin & Hq)|Hn'].
      * apply elem_of_cons in Hin as [->|Hin]; [|tauto].
        unfold inner_step. destruct q as [|k q]; [done|]. simpl.
        by apply (entry_set_eq r c).
      * unfold inner_step.
        destruct (0 <? length q)%nat eqn:Hlen; [|done].
        apply entry_set_ne.
        destruct (decide (j' = j)) as [->|]; [|by left]. right.
        intros ->. apply Hn'. repeat split; [by left|].
        intros ->. done.
Qed.

Lemma where_nil_count t i :
  Np.where_ (fun x => (col0 x =? Z.of_nat i)%Z) t = [] <-> count_true t i = 0%nat.
Proof.
  unfold count_true. rewrite <- length_where.
  split; [by intros ->|]. by intros ?%nil_length_inv.
Qed.

Lemma outer_step_spec t num i c m :
  let r := Z.to_nat (num + 2) in
  (i < c)%nat -> has_shape r c m ->
  has_shape r c (outer_step t num m i) /\
  forall j' i',
    entry (outer_step t num m i) j' i' =
      if decide (i' = i /\ (j' < r)%nat /\ count_true t i <> 0%nat)
      then Some (stored t i j')
      else entry m j' i'.
Proof.
  intros r Hi Hm. unfold outer_step.
  destruct (inner_loop t (Np.where_ (fun x => (col0 x =? Z.of_nat i)%Z) t)
              i r c (seq 0 r) Hi) with (m := m) as [Hshape Hent]; [|done|].
  { intros j Hj%elem_of_seq. lia. }
  split; [exact Hshape|]. intros j' i'. fold r. rewrite Hent.
  apply decide_ext. rewrite elem_of_seq, where_nil_count. intuition lia.
Qed.

(** The outer loop writes the columns it visits. *)
Lemma outer_loop t num c cols :
  let r := Z.to_nat (num + 2) in
  (forall i, i ∈ cols -> (i < c)%nat) ->
  forall m, has_shape r c m ->
    let m' := foldl (outer_step t num) m cols in
    has_shape r c m' /\
    forall j' i',
      entry m' j' i' =
        if decide (i' ∈ cols /\ (j' < r)%nat /\ count_true t i' <> 0%nat)
        then Some (stored t i' j')
        else entry m j' i'.
Proof.
  intros r. induction cols as [|i cols IH]; intros Hcols m Hm; cbn [foldl].
  - split; [done|]. intros j' i'. rewrite decide_False; [done|].
    intros (?%elem_of_nil & _). done.
  - destruct (outer_step_spec t num i c m) as [Hstep Hent1];
      [apply Hcols; left|done|].
    destruct (IH (fun k Hk => Hcols k (list_elem_of_further _ _ _ Hk))
                 _ Hstep) as [Hshape Hent].
    split; [exact Hshape|]. intros j' i'. rewrite Hent, Hent1. fold r.
    destruct (decide (i' = i /\ (j' < r)%nat /\ count_true t i <> 0%nat))
      as [(-> & Hj & Hc)|Hn1].
    + destruct (decide (i ∈ cols /\ (j' < r)%nat /\ count_true t i <> 0%nat));
        (rewrite decide_True; [done|]); repeat split; try done; by left.
    + apply decide_ext. rewrite elem_of_cons. split.
      * intros (Hin & Hj & Hc). repeat split; [by right|done..].
      * intros ([->|Hin] & Hj & Hc); [|done]. exfalso. by apply Hn1.
Qed.

(** After the two loops the matrix holds the counts. *)
Lemma tabulate_spec t num :
  let r := Z.to_nat (num + 2) in
  let c := Z.to_nat (num + 1) in
  let m := tabulate t num (zeros r c) in
  has_shape r c m /\
  forall j i, (j < r)%nat -> (i < c)%nat ->
    entry m j i = Some (inject_Z (Z.of_nat (count_ij t i j))).
Proof.
  intros r c m.
  destruct (outer_loop t num c (seq 0 c)) with (m := zeros r c)
    as [Hshape Hent].
  { intros i Hi%elem_of_seq. lia. }
  { apply zeros_shape. }
  split; [exact Hshape|]. intros j i Hj Hi.
  unfold m, tabulate. fold c. rewrite Hent.
  case_decide as Hd.
  - by rewrite stored_count.
  - rewrite entry_zeros by done.
    assert (Hz : count_true t i = 0%nat).
    { destruct (decide (count_true t i = 0%nat)); [done|].
      exfalso. apply Hd. rewrite elem_of_seq. repeat split; [lia..|done]. }
    pose proof (count_ij_le_true t i j).
    replace (count_ij t i j) with 0%nat by lia. done.
Qed.

Lemma entry_None_row r c m j i :
  has_shape r c m -> (r <= j)%nat -> entry m j i = None.
Proof.
  intros [Hr _] Hj. unfold entry. rewrite lookup_ge_None_2; [done|lia].
Qed.

(** A column read through [column] is the column read entry by entry. *)
Lemma column_lookup r c m i j :
  has_shape r c m -> (i < c)%nat -> column m i !! j = entry m j i.
Proof.
  intros [_ Hc] Hi. unfold column, entry. clear r.
  revert j. induction Hc as [|row m Hrow Hc IH]; intros j; [done|].
  destruct (lookup_lt_is_Some_2 row i) as [e He]; [lia|].
  cbn [omap list_omap]. rewrite He.
  destruct j as [|j]; simpl; [done|]. apply IH.
Qed.

Lemma column_length r c m i :
  has_shape r c m -> (i < c)%nat -> length (column m i) = r.
Proof.
  intros [Hr Hc] Hi. unfold column. subst r.
  induction Hc as [|row m Hrow Hc IH]; [done|].
  destruct (lookup_lt_is_Some_2 row i) as [e He]; [lia|].
  cbn [omap list_omap]. rewrite He. simpl. by rewrite IH.
Qed.

(** A column whose entries are known is the list of those entries. *)
Lemma column_tabulated r c m i (g : nat -> Q) :
  has_shape r c m -> (i < c)%nat ->
  (forall j, (j < r)%nat -> entry m j i = Some (g j)) ->
  column m i = g <$> seq 0 r.
Proof.
  intros Hm Hi Hent. apply list_eq. intros j.
  rewrite (column_lookup r c) by done. rewrite list_lookup_fmap.
  destruct (decide (j < r)%nat) as [Hj|Hj].
  - rewrite Hent by done. by rewrite lookup_seq_lt.
  - rewrite (entry_None_row r c) by (done || lia).
    by rewrite lookup_seq_ge by lia.
Qed.

Lemma normalise_shape r c m norm :
  has_shape r c m -> length norm = c -> has_shape r c (normalise m norm).
Proof.
  intros [Hr Hc] Hn. split; unfold normalise.
  - by rewrite length_fmap.
  - apply Forall_fmap. eapply Forall_impl; [exact Hc|].
    intros row Hrow. cbv beta delta [compose] in *.
    rewrite length_zip_with. lia.
Qed.

Lemma entry_normalise m norm j i :
  entry (normalise m norm) j i =
    e ← entry m j i; n ← norm !! i; Some (e / n * 100)%Q.
Proof.
  unfold entry, normalise. rewrite list_lookup_fmap.
  destruct (m !! j) as [row|]; [|done]. simpl.
  rewrite lookup_zip_with. by destruct (row !! i).
Qed.

Lemma sum_axis0_lookup c m i :
  (i < c)%nat -> sum_axis0 c m !! i = Some (Np.sum (column m i)).
Proof.
  intros Hi. unfold sum_axis0. rewrite list_lookup_fmap.
  by rewrite lookup_seq_lt.
Qed.

(** Sums of counts. *)
Lemma sum_counts (ns : list nat) :
  Np.sum ((fun n => inject_Z (Z.of_nat n)) <$> ns)
  == inject_Z (Z.of_nat (sum_list ns)).
Proof.
  induction ns as [|n ns IH]; [reflexivity|].
  simpl. rewrite IH, Nat2Z.inj_add, inject_Z_plus. reflexivity.
Qed.

Lemma sum_scaled (n : Q) (l : list Q) :
  Np.sum ((fun e => e / n * 100) <$> l)%Q == (Np.sum l / n * 100)%Q.
Proof.
  induction l as [|e l IH]; simpl.
  - unfold Qdiv. ring.
  - rewrite IH. unfold Qdiv. ring.
Qed.

(** Summed over the row labels, the counts of a column are the rows of the
    summary the matrix tabulates in that column. *)
Lemma count_tabulated_S t r i :
  count_tabulated t (S r) i = (count_tabulated t r i + count_ij t i r)%nat.
Proof.
  unfold count_tabulated, count_ij.
  induction t as [|x t IH]; [done|]. cbn [List.filter].
  destruct (col0 x =? Z.of_nat i)%Z; cbn [andb]; [|exact IH].
  destruct (Z.eqb_spec (col1 x) (Z.of_nat r)),
           (Z.leb_spec 0 (col1 x)),
           (Z.ltb_spec (col1 x) (Z.of_nat r)),
           (Z.ltb_spec (col1 x) (Z.of_nat (S r)));
    cbn [andb length]; lia.
Qed.

Lemma sum_count_ij t r i :
  sum_list (count_ij t i <$> seq 0 r) = count_tabulated t r i.
Proof.
  induction r as [|r IH].
  - unfold count_tabulated. simpl.
    induction t as [|x t IHt]; [done|]. cbn [List.filter].
    destruct (col0 x =? Z.of_nat i)%Z; cbn [andb]; [|exact IHt].
    destruct (Z.leb_spec 0 (col1 x)), (Z.ltb_spec (col1 x) (Z.of_nat 0));
      cbn [andb length]; (exact IHt || lia).
  - rewrite seq_S, fmap_app, sum_list_with_app, IH, count_tabulated_S.
    simpl. lia.
Qed.

Lemma count_ij_le_tabulated t r i j :
  (j < r)%nat -> (count_ij t i j <= count_tabulated t r i)%nat.
Proof.
  intros Hj. rewrite <- sum_count_ij.
  induction r as [|r IH]; [lia|].
  rewrite seq_S, fmap_app, sum_list_with_app. simpl.
  destruct (decide (j = r)) as [->|]; [lia|].
  etrans; [apply IH; lia|lia].
Qed.

Lemma inject_nat_eq0 (n : nat) : inject_Z (Z.of_nat n) == 0 <-> n = 0%nat.
Proof. unfold Qeq. simpl. lia. Qed.

(** The returned matrix, entry by entry: the count at [j, i] over the
    column's norm, times 100; the norm is the number of rows the column
    tabulates, or 1 when there is none. *)
Lemma eff_matrix_final t num :
  (0 <= num + 1)%Z ->
  let r := Z.to_nat (num + 2) in
  let c := Z.to_nat (num + 1) in
  exists M,
    get_detection_eff_matrix t num = Ok M /\ has_shape r c M /\
    forall i, (i < c)%nat ->
      exists N : Q,
        (if decide (count_tabulated t r i = 0%nat) then N == 1
         else N == inject_Z (Z.of_nat (count_tabulated t r i))) /\
        forall j, (j < r)%nat ->
          entry M j i
          = Some (inject_Z (Z.of_nat (count_ij t i j)) / N * 100)%Q.
Proof.
  intros Hnum r c. unfold get_detection_eff_matrix.
  destruct (Z.ltb_spec (num + 1) 0) as [?|_]; [lia|]. fold r c.
  destruct (tabulate_spec t num) as [Hshape Hent]. fold r c in Hshape, Hent.
  set (m := tabulate t num (zeros r c)) in *.
  eexists. split; [reflexivity|]. split.
  { apply normalise_shape; [done|].
    unfold fix_norm, sum_axis0. by rewrite !length_fmap, length_seq. }
  intros i Hi.
  set (S := Np.sum (column m i)).
  assert (HS : S == inject_Z (Z.of_nat (count_tabulated t r i))).
  { unfold S.
    rewrite (column_tabulated r c m i
               (fun j => inject_Z (Z.of_nat (count_ij t i j)))) by auto.
    rewrite <- sum_count_ij, <- sum_counts. by rewrite <- list_fmap_compose. }
  exists (if Qeq_bool S 0 then 1%Q else S). split.
  - destruct (Qeq_bool S 0) eqn:Hz.
    + apply Qeq_bool_iff in Hz. rewrite HS in Hz.
      apply inject_nat_eq0 in Hz. by rewrite decide_True.
    + apply Qeq_bool_neq in Hz. rewrite decide_False; [done|].
      intros Hn. apply Hz. rewrite HS. by apply inject_nat_eq0.
  - intros j Hj. rewrite entry_normalise, Hent by done. simpl.
    unfold fix_norm. rewrite list_lookup_fmap, sum_axis0_lookup by done.
    done.
Qed.

End EffFacts.

(** Three blends with one true object each: one is missed, two are
    detected. *)
Example eff_matrix_small :
  Eff.get_detection_eff_matrix
    [Eff.SummaryRow 1 1 []; Eff.SummaryRow 1 0 []; Eff.SummaryRow 1 1 []] 1
  = Ok [[0; 100 # 3]; [0; 200 # 3]; [0; 0 # 3]]%Q.
Proof. reflexivity. Qed.

(** A negative dimension is refused by [np.zeros]. *)
Example eff_matrix_negative :
  Eff.get_detection_eff_matrix [Eff.SummaryRow 1 1 []] (-2) = Raise ValueError.
Proof. reflexivity. Qed.

(** C8. For every integer [num >= 0] and every summary table,
    [get_detection_eff_matrix] returns an array of shape
    [(num + 2, num + 1)]: [num + 2] rows (detected counts [0 .. num+1]), each
    of [num + 1] entries (true counts [0 .. num]). *)
Theorem eff_matrix_shape (t : Eff.summary) (num : Z) :
  (0 <= num)%Z ->
  exists m,
    Eff.get_detection_eff_matrix t num = Ok m /\
    length m = Z.to_nat (num + 2) /\
    Forall (fun row => length row = Z.to_nat (num + 1)) m.
Proof.
  intros Hnum.
  destruct (eff_matrix_final t num) as (M & HM & [Hr Hc] & _); [lia|].
  by exists M.
Qed.

Lemma eff_matrix_shape_witness :
  exists m,
    Eff.get_detection_eff_matrix
      [Eff.SummaryRow 1 1 []; Eff.SummaryRow 2 1 [0; 0; 0]%Z] 2 = Ok m /\
    length m = 4%nat /\ Forall (fun row => length row = 3%nat) m.
Proof.
  apply (eff_matrix_shape
           [Eff.SummaryRow 1 1 []; Eff.SummaryRow 2 1 [0; 0; 0]%Z] 2).
  lia.
Defined.

(** The claim as first stated divides by the number of rows with true count
    [i].  The code divides by the column's sum, which leaves out the rows
    whose detected count is not a row label of the matrix: with [num = 1]
    and the rows (true 1, detected 0) and (true 1, detected 3), entry
    [0, 1] is 100, not 100 * 1 / 2. *)
Lemma eff_matrix_true_count_counterexample :
  let t := [Eff.SummaryRow 1 0 []; Eff.SummaryRow 1 3 []] in
  ~ (forall m q,
       Eff.get_detection_eff_matrix t 1 = Ok m ->
       Eff.entry m 0 1 = Some q ->
       q == 100 * inject_Z (Z.of_nat (Eff.count_ij t 1 0))
            / inject_Z (Z.of_nat (Eff.count_true t 1))).
Proof.
  intros t H.
  specialize (H _ 100%Q eq_refl eq_refl). vm_compute in H. discriminate H.
Qed.

(** C1 (amended). For every integer [num >= 1] and every summary table the
    matrix returned by [get_detection_eff_matrix] has, for [0 <= i <= num]
    and [0 <= j <= num+1], entry [j, i] equal to 100 times the number of
    rows with true count [i] and detected count [j], divided by the number
    of rows with true count [i] whose detected count lies in [0 .. num+1];
    the entry is 0 for every [j] when there is no such row.  Consequently
    (in exact arithmetic) every column is all zeros or sums to 100. *)
Theorem eff_matrix_entries (t : Eff.summary) (num : Z) :
  (1 <= num)%Z ->
  exists m,
    Eff.get_detection_eff_matrix t num = Ok m /\
    forall i : nat, (Z.of_nat i <= num)%Z ->
      let n := Eff.count_tabulated t (Z.to_nat (num + 2)) i in
      (forall j : nat, (Z.of_nat j <= num + 1)%Z ->
         exists q,
           Eff.entry m j i = Some q /\
           (n = 0%nat -> q == 0) /\
           (n <> 0%nat ->
            q == 100 * inject_Z (Z.of_nat (Eff.count_ij t i j))
                 / inject_Z (Z.of_nat n))) /\
      ((forall x, x ∈ Eff.column m i -> x == 0)
       \/ Np.sum (Eff.column m i) == 100).
Proof.
  intros Hnum.
  destruct (eff_matrix_final t num) as (M & HM & Hshape & Hcols); [lia|].
  exists M. split; [exact HM|]. intros i Hi n.
  destruct (Hcols i) as (N & HN & Hent); [lia|]. fold n in HN.
  assert (Hcol : Eff.column M i
                 = (fun e => e / N * 100)%Q
                     <$> ((fun k => inject_Z (Z.of_nat k))
                            <$> (Eff.count_ij t i <$> seq 0 (Z.to_nat (num + 2))))).
  { rewrite <- !list_fmap_compose.
    apply (column_tabulated _ (Z.to_nat (num + 1))); [done|lia|].
    intros j Hj. by rewrite Hent. }
  destruct (decide (n = 0%nat)) as [Hz|Hnz].
  - assert (Hzero : forall j, (j < Z.to_nat (num + 2))%nat ->
                      Eff.count_ij t i j = 0%nat).
    { intros j Hj. pose proof (count_ij_le_tabulated t _ i j Hj).
      fold n in H. lia. }
    split.
    + intros j Hj. eexists. split; [apply Hent; lia|]. split; [|done].
      intros _. rewrite Hzero by lia. simpl. unfold Qdiv. ring.
    + left. intros x. rewrite Hcol.
      intros (e & -> & (k & -> & (j & -> & Hj%elem_of_seq)%list_elem_of_fmap)
                         %list_elem_of_fmap)%list_elem_of_fmap.
      rewrite Hzero by lia. simpl. unfold Qdiv. ring.
  - assert (HNz : ~ N == 0).
    { rewrite HN. by intros ?%inject_nat_eq0. }
    split.
    + intros j Hj. eexists. split; [apply Hent; lia|]. split; [done|].
      intros _. rewrite <- HN. field. exact HNz.
    + right. rewrite Hcol, sum_scaled, sum_counts, sum_count_ij.
      fold n. rewrite <- HN. field. exact HNz.
Qed.

Lemma eff_matrix_entries_witness :
  let t := [Eff.SummaryRow 1 1 []; Eff.SummaryRow 1 0 []; Eff.SummaryRow 1 1 [];
            Eff.SummaryRow 2 7 []] in
  exists m,
    Eff.get_detection_eff_matrix t 2 = Ok m /\
    forall i : nat, (Z.of_nat i <= 2)%Z ->
      let n := Eff.count_tabulated t (Z.to_nat (2 + 2)) i in
      (forall j : nat, (Z.of_nat j <= 2 + 1)%Z ->
         exists q,
           Eff.entry m j i = Some q /\
           (n = 0%nat -> q == 0) /\
           (n <> 0%nat ->
            q == 100 * inject_Z (Z.of_nat (Eff.count_ij t i j))
                 / inject_Z (Z.of_nat n))) /\
      ((forall x, x ∈ Eff.column m i -> x == 0)
       \/ Np.sum (Eff.column m i) == 100).
Proof.
  intros t. apply (eff_matrix_entries t 2). lia.
Defined.

(** ** [basic_selection_function] *)

Lemma filter_idempotent {A} (p : A -> bool) (l : list A) :
  List.filter p (List.filter p l) = List.filter p l.
Proof.
  induction l as [|x l IH]; [done|]. cbn [List.filter].
  destruct (p x) eqn:Hp; [|exact IH].
  cbn [List.filter]. by rewrite Hp, IH.
Qed.

Lemma basic_selection_filter (catalog : Utils.table) :
  Utils.basic_selection_function catalog = List.filter Utils.selected catalog.
Proof. apply index_where. Qed.

(** A galaxy without flux has an undefined [r_sec] and is dropped; so is a
    galaxy fainter than 27. *)
Example basic_selection_sample :
  Utils.basic_selection_function
    [Sample.bright;
     Utils.Galaxy 12 0 0 (1 # 2) (1 # 2) 0 0 22%Q;
     Utils.Galaxy 13 0 0 (1 # 2) (1 # 2) 1 1 28%Q;
     Sample.faint]
  = [Sample.bright; Sample.faint].
Proof. reflexivity. Qed.

(** C10. [basic_selection_function] is idempotent: every row of its output
    has a defined [r_sec] with [r_sec <= 4] (stated on the square,
    [r_sec**2 <= 16]) and [i_ab <= 27], so applying the function to its own
    output returns the same rows. *)
Theorem basic_selection_idempotent (catalog : Utils.table) :
  let out := Utils.basic_selection_function catalog in
  (forall g, g ∈ out ->
     g ∈ catalog /\ Utils.r_sec_defined g = true /\
     (Utils.r_sec_sq g <= 16)%Q /\ (Utils.i_ab g <= 27)%Q) /\
  Utils.basic_selection_function out = out.
Proof.
  intros out. unfold out. rewrite !basic_selection_filter. split.
  - intros g Hg. apply list_elem_of_In, List.filter_In in Hg as [Hin Hsel].
    unfold Utils.selected in Hsel.
    apply andb_prop in Hsel as [Hsel Hi]. apply andb_prop in Hsel as [Hd Hr].
    repeat split; [by apply list_elem_of_In|done|..]; by apply Qle_bool_iff.
  - apply filter_idempotent.
Qed.

(** ** [load_catalog] *)

Example splitext_fits :
  GetInputCatalog.splitext "sample_input_catalog.fits"
  = ("sample_input_catalog", ".fits")%string.
Proof. reflexivity. Qed.

(** A leading dot starts no extension. *)
Example splitext_hidden :
  GetInputCatalog.splitext "catalogs/.fits" = ("catalogs/.fits", "")%string.
Proof. reflexivity. Qed.

(** C3. For every [Args], [load_catalog] reads the file named by
    [Args.catalog_name], as FITS when the extension of the name is ".fits"
    and as ascii.basic otherwise; without a selection function it returns
    the table as read, and with one it returns the selection function
    applied to that table. *)
Theorem load_catalog_returns {tbl : Type}
    (table_read : string -> GetInputCatalog.table_format -> res tbl)
    (Args : Utils.args) (selection_function : option (tbl -> res tbl)) :
  let fmt :=
    if String.eqb (snd (GetInputCatalog.splitext (Utils.catalog_name Args)))
                  ".fits"
    then GetInputCatalog.fits else GetInputCatalog.ascii_basic in
  snd (GetInputCatalog.load_catalog tbl table_read Args selection_function)
  = match table_read (Utils.catalog_name Args) fmt with
    | Raise e => Raise e
    | Ok table =>
        match selection_function with
        | None => Ok table
        | Some f => f table
        end
    end.
Proof.
  intros fmt. unfold fmt, GetInputCatalog.load_catalog.
  destruct (GetInputCatalog.splitext (Utils.catalog_name Args)) as [name ext].
  cbn [snd].
  destruct (String.eqb ext ".fits");
    (destruct (table_read _ _) as [table|e]; [|done]);
    by destruct selection_function.
Qed.

Example load_catalog_sample :
  let read := fun (name : string) (fmt : GetInputCatalog.table_format) =>
    match fmt with
    | GetInputCatalog.fits => Ok [1; 2; 3]%Z
    | GetInputCatalog.ascii_basic => Raise IOError
    end in
  GetInputCatalog.load_catalog (list Z) read
    (Utils.Args_ "sample_input_catalog.fits" true 2 24 (2 # 10) None)
    (Some (fun t => Ok (List.filter (fun x => (x <? 3)%Z) t)))
  = (["Catalog loaded"; "Selection criterion applied to input catalog"]%string,
     Ok [1; 2]%Z).
Proof. reflexivity. Qed.

(** ** The rendering generator *)

Section DrawFacts.

Import DrawBlends.

Lemma chunks_fuel_concat {A} (k : nat) (l : list A) (fuel : nat) :
  (1 <= k)%nat -> (length l <= fuel)%nat ->
  concat (chunks_fuel fuel k l) = l.
Proof.
  intros Hk. revert l. induction fuel as [|fuel IH]; intros l Hl.
  - destruct l; [done|simpl in Hl; lia].
  - destruct l as [|x l]; [done|]. cbn [chunks_fuel concat].
    rewrite IH; [apply take_drop|].
    rewrite length_drop. simpl in *. lia.
Qed.

Lemma chunks_concat {A} (k : nat) (l : list A) :
  (1 <= k)%nat \/ l = [] -> concat (chunks k l) = l.
Proof.
  intros [Hk| ->]; [|done]. by apply chunks_fuel_concat.
Qed.

Lemma concat_map_map {A B} (f : A -> B) (ls : list (list A)) :
  concat (map (map f) ls) = map f (concat ls).
Proof.
  induction ls as [|l ls IH]; [done|]. simpl. by rewrite IH, map_app.
Qed.

(** The pool's map returns what the serial map returns. *)
Lemma pool_map_map {A B} (processes : nat) (f : A -> B) (l : list A) :
  (1 <= processes)%nat -> pool_map processes f l = Ok (map f l).
Proof.
  intros Hp. unfold pool_map.
  destruct (Nat.eqb_spec processes 0) as [?|_]; [lia|].
  rewrite concat_map_map, chunks_concat; [done|].
  destruct l as [|x l]; [by right|left].
  set (n := length (x :: l)). set (d := (4 * processes)%nat).
  assert (Hn : (1 <= n)%nat) by (unfold n; simpl; lia).
  assert (Hd : d <> 0%nat) by (unfold d; lia).
  pose proof (Nat.div_mod_eq n d) as Hdm.
  destruct (Nat.eqb_spec (n `mod` d) 0) as [Hz|Hz]; [|lia].
  rewrite Hz in Hdm. destruct (n `div` d); lia.
Qed.

End DrawFacts.

(** C4. For every batch and every cpu count (at least one), drawing one
    batch with multiprocessing enabled yields [blend_images] and
    [isolated_images] equal, element for element, to those of the serial
    generator. *)
Theorem multiprocessing_equals_serial {entry_t blend_image_t isolated_image_t}
    (render : entry_t -> blend_image_t * isolated_image_t)
    (cpus : nat) (batch : list entry_t) :
  (1 <= cpus)%nat ->
  exists parallel_im serial_im,
    DrawBlends.generate _ _ _ render true cpus batch = Ok parallel_im /\
    DrawBlends.generate _ _ _ render false cpus batch = Ok serial_im /\
    DrawBlends.blend_images _ _ parallel_im
      = DrawBlends.blend_images _ _ serial_im /\
    DrawBlends.isolated_images _ _ parallel_im
      = DrawBlends.isolated_images _ _ serial_im /\
    length (DrawBlends.blend_images _ _ parallel_im) = length batch.
Proof.
  intros Hcpus. unfold DrawBlends.generate.
  rewrite pool_map_map by done.
  do 2 eexists. repeat split. simpl. by rewrite length_fmap, length_map.
Qed.

Lemma multiprocessing_equals_serial_witness :
  let render := fun n : nat => (n * 2, [n; n + 1])%nat in
  exists parallel_im serial_im,
    DrawBlends.generate _ _ _ render true 3 (seq 0 16) = Ok parallel_im /\
    DrawBlends.generate _ _ _ render false 3 (seq 0 16) = Ok serial_im /\
    DrawBlends.blend_images _ _ parallel_im
      = DrawBlends.blend_images _ _ serial_im /\
    DrawBlends.isolated_images _ _ parallel_im
      = DrawBlends.isolated_images _ _ serial_im /\
    length (DrawBlends.blend_images _ _ parallel_im) = length (seq 0 16).
Proof.
  intros render. apply (multiprocessing_equals_serial render 3 (seq 0 16)). lia.
Defined.

(** ** The random generator *)

Section RngFacts.

Lemma bind_Ok {A B} (c : Rng.np A) (k : A -> Rng.np B) g b g' :
  (x ← c; k x) g = Ok (b, g') <->
  exists a g1, c g = Ok (a, g1) /\ k a g1 = Ok (b, g').
Proof.
  unfold mbind, np_bind, Rng.bind. split.
  - destruct (c g) as [[a g1]|e]; [|done]. intros H. by exists a, g1.
  - by intros (a & g1 & -> & ?).
Qed.

Lemma bind_step {A B} (c : Rng.np A) (k : A -> Rng.np B) g a g1 :
  c g = Ok (a, g1) -> (x ← c; k x) g = k a g1.
Proof. unfold mbind, np_bind, Rng.bind. by intros ->. Qed.

Lemma bind_Raise {A B} (c : Rng.np A) (k : A -> Rng.np B) g e :
  c g = Raise e -> (x ← c; k x) g = Raise e.
Proof. unfold mbind, np_bind, Rng.bind. by intros ->. Qed.

Lemma lift_Ok {A} (r : res A) g a g' :
  Rng.lift r g = Ok (a, g') <-> r = Ok a /\ g' = g.
Proof.
  unfold Rng.lift. destruct r as [a0|e].
  - split; [by intros [= -> ->]|by intros [[= ->] ->]].
  - split; [done|by intros [? _]].
Qed.

Lemma randint_Ok low high g n g' :
  Rng.randint low high g = Ok (n, g') ->
  (low <= n < high)%Z /\ g' = snd (Rng.next g).
Proof.
  unfold Rng.randint. destruct (Z.leb_spec high low); [done|].
  destruct (Rng.next g) as [r g1]. intros [= <- <-]. split; [|done].
  pose proof (Z.mod_pos_bound (Z.of_N r) (high - low)). lia.
Qed.

Lemma randint_total low high g :
  (low < high)%Z -> exists n, Rng.randint low high g = Ok (n, snd (Rng.next g)).
Proof.
  intros Hlt. unfold Rng.randint. destruct (Z.leb_spec high low); [lia|].
  destruct (Rng.next g) as [r g1]. by eexists.
Qed.

Lemma random_total g : exists u, Rng.random g = Ok (u, snd (Rng.next g)).
Proof. unfold Rng.random. destruct (Rng.next g). by eexists. Qed.

Lemma pick_position {A} (a : list A) (r : N) :
  a <> [] -> (N.to_nat (r mod N.of_nat (length a)) < length a)%nat.
Proof.
  intros Ha. assert (length a <> 0%nat) by (by destruct a).
  pose proof (N.mod_upper_bound r (N.of_nat (length a))). lia.
Qed.

Lemma choice1_Ok {A} (a : list A) g x g' :
  Rng.choice1 a g = Ok (x, g') -> x ∈ a /\ g' = snd (Rng.next g).
Proof.
  unfold Rng.choice1, Rng.pick. destruct (Rng.next g) as [r g1].
  destruct (a !! _) as [y|] eqn:Hy; [|done]. intros [= <- <-].
  split; [|done]. by eapply list_elem_of_lookup_2.
Qed.

Lemma choice1_total {A} (a : list A) g :
  a <> [] -> exists x, Rng.choice1 a g = Ok (x, snd (Rng.next g)).
Proof.
  intros Ha. unfold Rng.choice1, Rng.pick. destruct (Rng.next g) as [r g1].
  destruct (lookup_lt_is_Some_2 a (N.to_nat (r mod N.of_nat (length a))))
    as [x Hx]; [by apply pick_position|].
  rewrite Hx. by exists x.
Qed.

Lemma choice1_nil {A} g : Rng.choice1 (@nil A) g = Raise ValueError.
Proof. unfold Rng.choice1, Rng.pick. by destruct (Rng.next g). Qed.

Lemma choice_n_Ok {A} (a : list A) n g xs g' :
  Rng.choice_n a n g = Ok (xs, g') ->
  length xs = n /\ forall x, x ∈ xs -> x ∈ a.
Proof.
  revert g xs g'. induction n as [|n IH]; intros g xs g'; cbn [Rng.choice_n].
  - intros [= <- <-]. split; [done|]. by intros x ?%elem_of_nil.
  - change (Rng.bind ?c ?k) with (mbind k c).
    intros (x & g1 & [Hx _]%choice1_Ok & H)%bind_Ok.
    apply bind_Ok in H as (ys & g2 & [Hlen Hys]%IH & [= <- <-]).
    split; [simpl; by rewrite Hlen|].
    intros y [->|Hy]%elem_of_cons; auto.
Qed.

Lemma choice_n_total {A} (a : list A) n g :
  a <> [] \/ n = 0%nat -> exists xs g', Rng.choice_n a n g = Ok (xs, g').
Proof.
  revert g. induction n as [|n IH]; intros g Ha; cbn [Rng.choice_n].
  - by eexists _, _.
  - destruct Ha as [Ha|?]; [|done].
    destruct (choice1_total a g Ha) as [x Hx].
    destruct (IH (snd (Rng.next g)) (or_introl Ha)) as (xs & g' & Hxs).
    exists (x :: xs), g'. unfold Rng.bind. by rewrite Hx, Hxs.
Qed.

Lemma choice_Ok {A} (a : list A) size g xs g' :
  Rng.choice a size g = Ok (xs, g') ->
  (0 <= size)%Z /\ length xs = Z.to_nat size /\ forall x, x ∈ xs -> x ∈ a.
Proof.
  unfold Rng.choice. destruct (Z.ltb_spec size 0); [done|].
  intros ?%choice_n_Ok. split; [lia|done].
Qed.

Lemma choice_total {A} (a : list A) size g :
  (0 <= size)%Z -> a <> [] ->
  exists xs g', Rng.choice a size g = Ok (xs, g').
Proof.
  intros Hs Ha. unfold Rng.choice. destruct (Z.ltb_spec size 0); [lia|].
  apply choice_n_total. by left.
Qed.

End RngFacts.

Section ChoiceFacts.

Lemma draw_distinct_Ok pool n g xs g' :
  NoDup pool -> Rng.draw_distinct pool n g = Ok (xs, g') ->
  NoDup xs /\ (forall x, x ∈ xs -> x ∈ pool) /\ length xs = n.
Proof.
  revert pool g xs g'.
  induction n as [|n IH]; intros pool g xs g' Hpool; cbn [Rng.draw_distinct].
  - intros [= <- <-]. repeat split; [constructor|].
    by intros x ?%elem_of_nil.
  - destruct (Rng.next g) as [r g1].
    destruct (pool !! _) as [x|] eqn:Hx; [|done].
    change (Rng.bind ?c ?k) with (mbind k c).
    intros (ys & g2 & Hys & [= <- <-])%bind_Ok.
    pose proof (delete_Permutation _ _ _ Hx) as Hperm.
    rewrite Hperm in Hpool. apply NoDup_cons in Hpool as [Hnotin Hdel].
    apply IH in Hys as (Hnd & Hsub & Hlen); [|done].
    repeat split.
    + apply NoDup_cons. split; [|done]. intros Hin. by apply Hnotin, Hsub.
    + intros y [->|Hy]%elem_of_cons; rewrite Hperm.
      * left.
      * right. by apply Hsub.
    + simpl. by rewrite Hlen.
Qed.

Lemma draw_distinct_total pool n g :
  (n <= length pool)%nat ->
  exists xs g', Rng.draw_distinct pool n g = Ok (xs, g').
Proof.
  revert pool g.
  induction n as [|n IH]; intros pool g Hn; cbn [Rng.draw_distinct].
  - by eexists _, _.
  - destruct (Rng.next g) as [r g1].
    destruct (lookup_lt_is_Some_2 pool
                (N.to_nat (r mod N.of_nat (length pool)))) as [x Hx].
    { apply pick_position. destruct pool; [simpl in Hn; lia|done]. }
    rewrite Hx.
    destruct (IH (delete (N.to_nat (r mod N.of_nat (length pool))) pool) g1)
      as (ys & g2 & Hys).
    { rewrite length_delete by eauto. lia. }
    exists (x :: ys), g2. unfold Rng.bind. by rewrite Hys.
Qed.

Lemma choice_no_replace_Ok n size g sel g' :
  Rng.choice_no_replace n size g = Ok (sel, g') ->
  (0 <= size <= Z.of_nat n)%Z /\ length sel = Z.to_nat size /\
  NoDup sel /\ forall k, k ∈ sel -> (k < n)%nat.
Proof.
  unfold Rng.choice_no_replace.
  destruct (Z.ltb_spec size 0); [done|].
  destruct (Z.ltb_spec (Z.of_nat n) size); [done|].
  intros (Hnd & Hsub & Hlen)%draw_distinct_Ok; [|apply NoDup_seq].
  repeat split; [lia..|done|done|].
  intros k Hk%Hsub%elem_of_seq. lia.
Qed.

Lemma choice_no_replace_total n size g :
  (0 <= size <= Z.of_nat n)%Z ->
  exists sel g', Rng.choice_no_replace n size g = Ok (sel, g').
Proof.
  intros Hs. unfold Rng.choice_no_replace.
  destruct (Z.ltb_spec size 0); [lia|].
  destruct (Z.ltb_spec (Z.of_nat n) size); [lia|].
  apply draw_distinct_total. rewrite length_seq. lia.
Qed.

Lemma choice_no_replace_negative n size g :
  (size < 0)%Z -> Rng.choice_no_replace n size g = Raise ValueError.
Proof.
  intros Hs. unfold Rng.choice_no_replace.
  by destruct (Z.ltb_spec size 0); [|lia].
Qed.

Context {A : Type}.
Implicit Types (l : list A) (q : list nat).

Lemma index_seq_from l pre :
  omap (fun k => (pre ++ l) !! k) (seq (length pre) (length l)) = l.
Proof.
  revert pre. induction l as [|x l IH]; intros pre; [done|].
  cbn [length seq omap list_omap].
  rewrite list_lookup_middle by done. f_equal.
  specialize (IH (pre ++ [x])). rewrite <- (assoc_L (++)) in IH.
  rewrite length_app, Nat.add_1_r in IH. exact IH.
Qed.

Lemma index_seq l : Np.index l (seq 0 (length l)) = l.
Proof. exact (index_seq_from l []). Qed.

Lemma omap_submseteq {C B} (f : C -> option B) (l k : list C) :
  l ⊆+ k -> omap f l ⊆+ omap f k.
Proof.
  intros [rest Hperm]%submseteq_Permutation.
  rewrite Hperm, omap_app. by apply submseteq_inserts_r.
Qed.

(** Rows taken at distinct positions are taken without replacement. *)
Lemma index_submseteq l q :
  NoDup q -> (forall k, k ∈ q -> (k < length l)%nat) -> Np.index l q ⊆+ l.
Proof.
  intros Hnd Hq. rewrite <- (index_seq l) at 2. unfold Np.index.
  apply omap_submseteq, NoDup_submseteq; [done|].
  intros k Hk%Hq. apply elem_of_seq. lia.
Qed.

Lemma index_length l q :
  (forall k, k ∈ q -> (k < length l)%nat) -> length (Np.index l q) = length q.
Proof.
  unfold Np.index. induction q as [|k q IH]; intros Hq; [done|].
  cbn [omap list_omap].
  destruct (lookup_lt_is_Some_2 l k) as [x Hx]; [apply Hq; left|].
  rewrite Hx. simpl. rewrite IH; [done|]. intros k' Hk'. apply Hq. by right.
Qed.

Lemma index_elem l q x :
  x ∈ Np.index l q -> exists k, k ∈ q /\ l !! k = Some x.
Proof. unfold Np.index. by intros ?%list_elem_of_omap. Qed.

End ChoiceFacts.

(** ** The sampling functions *)

Section SamplingFacts.

Import Utils.

Lemma iadd_Ok col d col' :
  iadd col d = Ok col' ->
  length col' = length col /\
  ((length d = length col /\ col' = zip_with Qplus col d)
   \/ (exists x, d = [x] /\ col' = (fun c => (c + x)%Q) <$> col)).
Proof.
  unfold iadd. destruct (Nat.eqb_spec (length d) (length col)) as [Hlen|Hlen].
  - intros [= <-]. split; [|by left].
    rewrite length_zip_with. lia.
  - destruct d as [|x [|? ?]]; [done| |done]. intros [= <-].
    split; [by rewrite length_fmap|]. right. by exists x.
Qed.

Lemma iadd_total col d :
  length d = length col \/ length d = 1%nat -> exists col', iadd col d = Ok col'.
Proof.
  unfold iadd. destruct (Nat.eqb_spec (length d) (length col)); [by eexists|].
  intros [?|Hd]; [done|]. destruct d as [|x [|? ?]]; try done. by eexists.
Qed.

Lemma same_galaxy_set (g : galaxy) (r d : Q) :
  same_galaxy (set_dec d (set_ra r g)) g.
Proof. done. Qed.

Lemma same_galaxy_trans (a b c : galaxy) :
  same_galaxy a b -> same_galaxy b c -> same_galaxy a c.
Proof. unfold same_galaxy. intros -> ->. by destruct c. Qed.

Lemma same_galaxy_i_ab (row src : galaxy) :
  same_galaxy row src -> i_ab row = i_ab src.
Proof. unfold same_galaxy. by intros ->. Qed.

(** Shifting the centres keeps the rows, in order, and writes the two
    shifted columns. *)
Lemma shift_centers_Ok (t : table) dx dy t' :
  shift_centers t dx dy = Ok t' ->
  exists ras decs,
    iadd (ra <$> t) dx = Ok ras /\ iadd (dec <$> t) dy = Ok decs /\
    ra <$> t' = ras /\ dec <$> t' = decs /\ Forall2 same_galaxy t' t.
Proof.
  unfold shift_centers.
  destruct (iadd (ra <$> t) dx) as [ras|e] eqn:Hra; [|done].
  destruct (iadd (dec <$> t) dy) as [decs|e] eqn:Hdec; [|done].
  intros [= <-]. exists ras, decs. do 2 (split; [done|]).
  apply iadd_Ok in Hra as [Hlr _]. apply iadd_Ok in Hdec as [Hld _].
  rewrite length_fmap in Hlr, Hld. clear dx dy.
  revert ras decs Hlr Hld.
  induction t as [|g t IH]; intros [|r ras] [|d decs] Hlr Hld;
    simplify_eq/=; [by repeat split|].
  destruct (IH ras decs) as (Hr & Hd & HF); [done..|].
  repeat split; [by rewrite Hr|by rewrite Hd|].
  constructor; [apply same_galaxy_set|done].
Qed.

Lemma shift_centers_total (t : table) dx dy :
  (length dx = length t \/ length dx = 1%nat) ->
  (length dy = length t \/ length dy = 1%nat) ->
  exists t', shift_centers t dx dy = Ok t'.
Proof.
  intros Hx Hy. unfold shift_centers.
  destruct (iadd_total (ra <$> t) dx) as [ras ->];
    [by rewrite length_fmap|].
  destruct (iadd_total (dec <$> t) dy) as [decs ->];
    [by rewrite length_fmap|].
  by eexists.
Qed.

Lemma where_nonempty {A} (p : A -> bool) (l : list A) :
  Np.where_ p l <> [] <-> exists x, x ∈ l /\ p x = true.
Proof.
  split.
  - intros Hne. destruct (Np.where_ p l) as [|k q] eqn:Hq; [done|].
    destruct (where_lookup p l k) as (x & Hx & Hp); [rewrite Hq; left|].
    exists x. split; [|done]. by eapply list_elem_of_lookup_2.
  - intros (x & Hx & Hp) Hnil.
    assert (Hin : In x (List.filter p l)).
    { apply List.filter_In. split; [by apply list_elem_of_In|done]. }
    rewrite <- index_where, Hnil in Hin. done.
Qed.

Lemma index_facts {A} (P : A -> Prop) (l : list A) q :
  (forall k, k ∈ q -> exists x, l !! k = Some x /\ P x) ->
  length (Np.index l q) = length q /\
  forall x, x ∈ Np.index l q -> x ∈ l /\ P x.
Proof.
  intros Hq. split.
  - apply index_length. intros k (x & Hx & _)%Hq. by eapply lookup_lt_Some.
  - intros x (k & (y & Hy & HP)%Hq & Hx)%index_elem. simplify_eq.
    split; [by eapply list_elem_of_lookup_2|done].
Qed.

(** What a successful run of the basic sampler went through. *)
Lemma basic_sampling_inv shift Args (catalog : table) g bc g' :
  basic_sampling_function shift Args catalog g = Ok (bc, g') ->
  exists (n : Z) (first others : list nat) (dx dy : list Q) (g0 : Rng.state),
    (0 <= n < max_number Args)%Z /\
    Rng.randint 0 (max_number Args) g = Ok (n, snd (Rng.next g)) /\
    length first = 1%nat /\
    (forall k, k ∈ first ->
       exists x, catalog !! k = Some x /\
                 (size_cond x = true /\ (i_ab x <= 24)%Q)) /\
    length others = Z.to_nat n /\
    (forall k, k ∈ others ->
       exists x, catalog !! k = Some x /\ size_cond x = true) /\
    shift Args (n + 1)%Z (MaxShift (stamp_size Args / 30) n) g0
      = Ok ((dx, dy), g') /\
    shift_centers
      ((fun x => set_dec 0 (set_ra 0 x))
         <$> (Np.index catalog first ++ Np.index catalog others)) dx dy
      = Ok bc.
Proof.
  unfold basic_sampling_function.
  intros (n & g1 & Hn & H)%bind_Ok.
  apply bind_Ok in H as (u & g2 & _ & H).
  apply bind_Ok in H as (first & g3 & Hfirst & H).
  apply bind_Ok in H as (others & g4 & Hothers & H).
  apply bind_Ok in H as (bc0 & g5 & [Hbc0 ->]%lift_Ok & H).
  apply bind_Ok in H as ([dx dy] & g6 & Hshift & [Hbc ->]%lift_Ok).
  injection Hbc0 as <-. rewrite app_nil_r in Hbc.
  pose proof (randint_Ok _ _ _ _ _ Hn) as [Hrange ->].
  apply choice_Ok in Hfirst as (_ & Hlen1 & Hin1).
  apply choice_Ok in Hothers as (_ & Hlen2 & Hin2).
  exists n, first, others, dx, dy, g4.
  repeat split; try done; try lia.
  - intros k (x & Hx & Hp)%Hin1%where_lookup. exists x. split; [done|].
    apply andb_prop in Hp as [Hc Hi]. split; [done|by apply Qle_bool_iff].
  - intros k Hk%Hin2.
    destruct (Qle_bool (9 # 10) u);
      apply where_lookup in Hk as (x & Hx & [Hc _]%andb_prop); by exists x.
Qed.

Lemma bright_in_q (b : galaxy) (u : Q) :
  size_cond b = true -> (i_ab b <= 24)%Q ->
  (size_cond b && negb (Qle_bool 28 (i_ab b)) = true) /\
  (size_cond b && Qle_bool (i_ab b) (253 # 10) = true).
Proof.
  intros -> Hi. split; simpl.
  - apply negb_true_iff, not_true_is_false. intros H28%Qle_bool_iff.
    assert (H : (28 <= 24)%Q) by (eapply Qle_trans; eassumption).
    by vm_compute in H.
  - apply Qle_bool_iff. eapply Qle_trans; [exact Hi|]. by vm_compute.
Qed.

(** With a bright galaxy of admissible size in the catalog the basic
    sampler returns a blend. *)
Lemma basic_sampling_total shift Args (catalog : table) g :
  shift_returns shift -> (1 <= max_number Args)%Z ->
  (exists b, b ∈ catalog /\ size_cond b = true /\ (i_ab b <= 24)%Q) ->
  exists bc g', basic_sampling_function shift Args catalog g = Ok (bc, g').
Proof.
  intros Hs Hmax (b & Hb & Hc & Hi). unfold basic_sampling_function.
  destruct (randint_total 0 (max_number Args) g) as [n Hn]; [lia|].
  pose proof (randint_Ok _ _ _ _ _ Hn) as [Hrange _].
  rewrite (bind_step _ _ _ _ _ Hn).
  destruct (random_total (snd (Rng.next g))) as [u Hu].
  rewrite (bind_step _ _ _ _ _ Hu).
  set (q_bright :=
         Np.where_ (fun x => size_cond x && Qle_bool (i_ab x) 24) catalog).
  set (q := if Qle_bool (9 # 10) u then _ else _).
  destruct (choice_total q_bright 1 (snd (Rng.next (snd (Rng.next g)))))
    as (first & g3 & Hfirst); [lia| |].
  { apply where_nonempty. exists b. split; [done|].
    rewrite Hc. simpl. by apply Qle_bool_iff. }
  rewrite (bind_step _ _ _ _ _ Hfirst).
  destruct (choice_total q n g3) as (others & g4 & Hothers); [lia| |].
  { destruct (bright_in_q b u Hc Hi) as [H28 H253].
    unfold q. destruct (Qle_bool (9 # 10) u);
      apply where_nonempty; by exists b. }
  rewrite (bind_step _ _ _ _ _ Hothers).
  unfold vstack. cbn [Rng.lift]. erewrite bind_step by reflexivity.
  destruct (Hs Args (n + 1)%Z (MaxShift (stamp_size Args / 30) n) g4)
    as (dx & dy & g5 & Hshift & Hdx & Hdy).
  rewrite (bind_step _ _ _ _ _ Hshift).
  apply choice_Ok in Hfirst as (_ & Hlen1 & Hin1).
  apply choice_Ok in Hothers as (_ & Hlen2 & Hin2).
  set (t0 := (fun x => set_dec 0 (set_ra 0 x))
               <$> concat [Np.index catalog first; Np.index catalog others]).
  assert (Hlen : length t0 = Z.to_nat (n + 1)).
  { unfold t0. simpl. rewrite app_nil_r, length_fmap, length_app.
    rewrite !index_length; [lia| |].
    - intros k Hk%Hin2. unfold q in Hk.
      destruct (Qle_bool (9 # 10) u);
        apply where_lookup in Hk as (x & Hx & _); by eapply lookup_lt_Some.
    - intros k (x & Hx & _)%Hin1%where_lookup. by eapply lookup_lt_Some. }
  destruct (shift_centers_total t0 dx dy) as [bc Hbc];
    [left; by rewrite Hlen..|].
  exists bc, g5. by rewrite Hbc.
Qed.

Lemma iadd_same_length col d :
  length d = length col -> iadd col d = Ok (zip_with Qplus col d).
Proof. intros Hlen. unfold iadd. by rewrite Hlen, Nat.eqb_refl. Qed.

Lemma zero_column_add {A} (f : A -> Q) (l : list A) (d : list Q) :
  (forall x, f x = 0%Q) -> length d = length l ->
  zip_with Qplus (f <$> l) d = (fun v => 0 + v)%Q <$> d.
Proof.
  intros Hf. revert d. induction l as [|x l IH]; intros [|v d] Hlen;
    simplify_eq/=; [done|].
  by rewrite Hf, IH.
Qed.

End SamplingFacts.

Lemma fixed_shift_returns : Utils.shift_returns Sample.fixed_shift.
Proof.
  intros Args n ms g. eexists _, _, _. split; [reflexivity|].
  by rewrite !length_replicate.
Qed.

(** C5. For every catalog and every [Args] with [max_number >= 1], the
    blend catalog returned by [basic_sampling_function] has between 1 and
    [max_number] rows, every row is a row of the input catalog (up to its
    centre), at least one row has [i_ab <= 24], and the [ra] and [dec] of
    the rows are the offsets [0 + dx] and [0 + dy] drawn by
    [get_random_center_shift].  A blend is returned exactly when the
    catalog holds a galaxy of admissible size with [i_ab <= 24]. *)
Theorem basic_sampling_blend
    (shift : Utils.args -> Z -> Utils.maxshift_t -> Rng.np (list Q * list Q))
    (Args : Utils.args) (catalog : Utils.table) (g : Rng.state) :
  Utils.shift_returns shift ->
  (1 <= Utils.max_number Args)%Z ->
  ((exists b, b ∈ catalog /\ Utils.size_cond b = true
              /\ (Utils.i_ab b <= 24)%Q)
   <-> exists bc g',
         Utils.basic_sampling_function shift Args catalog g = Ok (bc, g')) /\
  forall bc g',
    Utils.basic_sampling_function shift Args catalog g = Ok (bc, g') ->
    (1 <= Z.of_nat (length bc) <= Utils.max_number Args)%Z /\
    (forall row, row ∈ bc ->
       exists src, src ∈ catalog /\ Utils.same_galaxy row src) /\
    (exists row, row ∈ bc /\ (Utils.i_ab row <= 24)%Q) /\
    exists n g0 dx dy,
      shift Args (n + 1)%Z
            (Utils.MaxShift (Utils.stamp_size Args / 30) n) g0
        = Ok ((dx, dy), g') /\
      Utils.ra <$> bc = (fun d => 0 + d)%Q <$> dx /\
      Utils.dec <$> bc = (fun d => 0 + d)%Q <$> dy.
Proof.
  intros Hs Hmax. split.
  - split; [by apply basic_sampling_total|].
    intros (bc & g' & H). apply basic_sampling_inv in H
      as (n & first & others & dx & dy & g0 & _ & _ & Hl1 & Hf & _).
    destruct first as [|k [|? ?]]; try done.
    destruct (Hf k) as (b & Hb & Hc & Hi); [left|].
    exists b. split; [by eapply list_elem_of_lookup_2|done].
  - intros bc g' H. apply basic_sampling_inv in H
      as (n & first & others & dx & dy & g0 & Hn & _ & Hl1 & Hf & Hl2 & Ho
          & Hshift & Hbc).
    destruct (Hs Args (n + 1)%Z
                (Utils.MaxShift (Utils.stamp_size Args / 30) n) g0)
      as (dx' & dy' & g'' & Hshift' & Hdx & Hdy).
    rewrite Hshift in Hshift'. injection Hshift' as <- <- <-.
    pose proof (index_facts _ _ _ Hf) as [Hlf Hfx].
    pose proof (index_facts _ _ _ Ho) as [Hlo Hox].
    set (srcs := Np.index catalog first ++ Np.index catalog others) in *.
    assert (Hlen : length srcs = Z.to_nat (n + 1)).
    { unfold srcs. rewrite length_app, Hlf, Hlo. lia. }
    apply shift_centers_Ok in Hbc as (ras & decs & Hra & Hdec & Hr & Hd & HF).
    pose proof (Forall2_length _ _ _ HF) as HlenF.
    rewrite length_fmap in HlenF.
    split; [lia|]. split; [|split].
    + intros row Hrow.
      destruct (proj1 (list_elem_of_lookup _ _) Hrow) as [k Hk].
      destruct (Forall2_lookup_l _ _ _ _ _ HF Hk) as (src0 & Hsrc0 & Hsame).
      rewrite list_lookup_fmap in Hsrc0.
      destruct (srcs !! k) as [src|] eqn:Hsrc; [|done]. simplify_eq/=.
      exists src. split.
      * apply list_elem_of_lookup_2 in Hsrc.
        apply elem_of_app in Hsrc as [Hx%Hfx|Hx%Hox]; tauto.
      * eapply same_galaxy_trans; [exact Hsame|apply same_galaxy_set].
    + destruct first as [|k [|? ?]]; try done.
      destruct (Hf k) as (b & Hb & Hc & Hi); [left|].
      assert (Hhead : srcs !! 0%nat = Some b).
      { unfold srcs, Np.index. simpl. by rewrite Hb. }
      destruct (Forall2_lookup_r _ _ _ 0%nat
                  (Utils.set_dec 0 (Utils.set_ra 0 b)) HF)
        as (row & Hrow & Hsame).
      { by rewrite list_lookup_fmap, Hhead. }
      exists row. split; [by eapply list_elem_of_lookup_2|].
      by rewrite (same_galaxy_i_ab _ _ Hsame).
    + exists n, g0, dx, dy. split; [done|].
      rewrite iadd_same_length in Hra by (rewrite !length_fmap; lia).
      rewrite iadd_same_length in Hdec by (rewrite !length_fmap; lia).
      injection Hra as <-. injection Hdec as <-. rewrite Hr, Hd.
      rewrite <- !list_fmap_compose.
      split; apply zero_column_add; (done || lia).
Qed.


Lemma basic_sampling_blend_witness :
  ((exists b, b ∈ Sample.two_galaxies /\ Utils.size_cond b = true
              /\ (Utils.i_ab b <= 24)%Q)
   <-> exists bc g',
         Utils.basic_sampling_function Sample.fixed_shift Sample.default_args
           Sample.two_galaxies (Sample.constant 1) = Ok (bc, g')) /\
  forall bc g',
    Utils.basic_sampling_function Sample.fixed_shift Sample.default_args
      Sample.two_galaxies (Sample.constant 1) = Ok (bc, g') ->
    (1 <= Z.of_nat (length bc) <= Utils.max_number Sample.default_args)%Z /\
    (forall row, row ∈ bc ->
       exists src, src ∈ Sample.two_galaxies /\ Utils.same_galaxy row src) /\
    (exists row, row ∈ bc /\ (Utils.i_ab row <= 24)%Q) /\
    exists n g0 dx dy,
      Sample.fixed_shift Sample.default_args (n + 1)%Z
        (Utils.MaxShift (Utils.stamp_size Sample.default_args / 30) n) g0
        = Ok ((dx, dy), g') /\
      Utils.ra <$> bc = (fun d => 0 + d)%Q <$> dx /\
      Utils.dec <$> bc = (fun d => 0 + d)%Q <$> dy.
Proof.
  apply (basic_sampling_blend Sample.fixed_shift Sample.default_args
           Sample.two_galaxies (Sample.constant 1)).
  - exact fixed_shift_returns.
  - vm_compute. discriminate.
Defined.

(** The claim as first stated asks for at least two rows.  With the default
    [max_number = 2] and a generator whose first draw is even,
    [np.random.randint(0, 2)] is 0 and the blend has the one bright galaxy
    only. *)
Lemma basic_sampling_single_row_counterexample :
  exists bc g',
    Utils.basic_sampling_function Sample.fixed_shift Sample.default_args
      Sample.two_galaxies (Sample.constant 0) = Ok (bc, g') /\
    ~ (2 <= length bc)%nat.
Proof.
  eexists _, _. split; [vm_compute; reflexivity|]. simpl. lia.
Qed.

(** C7 (amended). The blend catalog returned by [basic_sampling_function]
    has [1 + number_of_objects] rows, where [number_of_objects] is the
    value [np.random.randint(0, max_number)] drew, between 0 and
    [max_number - 1]: at least one row, and exactly one when the draw
    is 0. *)
Theorem basic_sampling_row_count
    (shift : Utils.args -> Z -> Utils.maxshift_t -> Rng.np (list Q * list Q))
    (Args : Utils.args) (catalog : Utils.table) (g : Rng.state)
    (bc : Utils.table) (g' : Rng.state) :
  Utils.basic_sampling_function shift Args catalog g = Ok (bc, g') ->
  exists number_of_objects g1,
    Rng.randint 0 (Utils.max_number Args) g = Ok (number_of_objects, g1) /\
    (0 <= number_of_objects < Utils.max_number Args)%Z /\
    Z.of_nat (length bc) = (1 + number_of_objects)%Z /\
    (1 <= length bc)%nat.
Proof.
  intros H. apply basic_sampling_inv in H
    as (n & first & others & dx & dy & g0 & Hn & Hrand & Hl1 & Hf & Hl2 & Ho
        & Hshift & Hbc).
  pose proof (index_facts _ _ _ Hf) as [Hlf _].
  pose proof (index_facts _ _ _ Ho) as [Hlo _].
  apply shift_centers_Ok in Hbc as (_ & _ & _ & _ & _ & _ & HF).
  apply Forall2_length in HF.
  rewrite length_fmap, length_app, Hlf, Hlo in HF.
  eexists n, _. split; [exact Hrand|]. repeat split; lia.
Qed.

Lemma basic_sampling_row_count_witness :
  exists bc g',
    Utils.basic_sampling_function Sample.fixed_shift Sample.default_args
      Sample.two_galaxies (Sample.constant 1) = Ok (bc, g') /\
    exists number_of_objects g1,
      Rng.randint 0 (Utils.max_number Sample.default_args) (Sample.constant 1)
        = Ok (number_of_objects, g1) /\
      (0 <= number_of_objects < Utils.max_number Sample.default_args)%Z /\
      Z.of_nat (length bc) = (1 + number_of_objects)%Z /\
      (1 <= length bc)%nat.
Proof.
  eexists _, _. split; [vm_compute; reflexivity|].
  eapply (basic_sampling_row_count Sample.fixed_shift Sample.default_args
            Sample.two_galaxies (Sample.constant 1)).
  vm_compute. reflexivity.
Defined.

(** ** The group sampler *)

Section GroupFacts.

Import Utils.

Lemma elem_of_insert_unique (x y : Z) (l : list Z) :
  y ∈ insert_unique x l <-> y = x \/ y ∈ l.
Proof.
  induction l as [|z l IH]; simpl.
  - rewrite list_elem_of_singleton, elem_of_nil. tauto.
  - destruct (Z.ltb_spec x z); [by rewrite elem_of_cons|].
    destruct (Z.eqb_spec x z) as [->|].
    + rewrite elem_of_cons. tauto.
    + rewrite !elem_of_cons, IH. tauto.
Qed.

Lemma elem_of_unique (y : Z) (l : list Z) : y ∈ unique l <-> y ∈ l.
Proof.
  unfold unique. induction l as [|x l IH]; simpl; [done|].
  by rewrite elem_of_insert_unique, IH, elem_of_cons.
Qed.

Lemma elem_of_List_filter {A} (p : A -> bool) (l : list A) (x : A) :
  x ∈ List.filter p l <-> x ∈ l /\ p x = true.
Proof. by rewrite !list_elem_of_In, List.filter_In. Qed.

Lemma List_filter_submseteq {A} (p : A -> bool) (l : list A) :
  List.filter p l ⊆+ l.
Proof.
  induction l as [|x l IH]; [done|]. simpl.
  destruct (p x); [by apply submseteq_skip|by apply submseteq_cons].
Qed.

Lemma elem_of_concat {A} (ls : list (list A)) (x : A) :
  x ∈ concat ls <-> exists l, x ∈ l /\ l ∈ ls.
Proof.
  rewrite list_elem_of_In, List.in_concat. split.
  - intros (l & Hl & Hx). exists l. by rewrite !list_elem_of_In.
  - intros (l & Hx & Hl). exists l. by rewrite <- !list_elem_of_In.
Qed.

(** A group id that can be drawn labels a group of at least two. *)
Lemma elem_of_group_ids (wld : list wld_row) (gid : Z) :
  gid ∈ group_ids wld <->
  exists w, w ∈ wld /\ grp_id w = gid /\ (2 <= grp_size w)%Z.
Proof.
  unfold group_ids. rewrite elem_of_unique, list_elem_of_fmap. split.
  - intros (w & -> & [Hw Hs]%elem_of_List_filter).
    exists w. repeat split; [done|lia].
  - intros (w & Hw & <- & Hs). exists w. split; [done|].
    apply elem_of_List_filter. split; [done|lia].
Qed.

(** The rows stacked for a group are rows of the catalog whose id is the
    [db_id] of a member of the group. *)
Lemma elem_of_group_members (wld : list wld_row) (gid : Z) (catalog : table)
    (src : galaxy) :
  src ∈ concat (group_members wld gid catalog) ->
  src ∈ catalog /\
  exists w, w ∈ wld /\ grp_id w = gid /\ galtileid src = db_id w.
Proof.
  unfold group_members.
  intros (t & Hsrc & (i & -> & (w & -> & [Hw Hg]%elem_of_List_filter)
                        %list_elem_of_fmap)%list_elem_of_fmap)
    %elem_of_concat.
  apply elem_of_List_filter in Hsrc as [Hsrc Hid].
  split; [done|]. exists w. repeat split; [done|lia..].
Qed.

Lemma same_galaxy_set_ra (g : galaxy) (v : Q) : same_galaxy (set_ra v g) g.
Proof. done. Qed.

Lemma same_galaxy_set_dec (g : galaxy) (v : Q) : same_galaxy (set_dec v g) g.
Proof. done. Qed.

Lemma Forall2_same_galaxy_fmap (f : galaxy -> galaxy) (l k : table) :
  (forall x, same_galaxy (f x) x) ->
  Forall2 same_galaxy l (f <$> k) -> Forall2 same_galaxy l k.
Proof.
  intros Hf H. apply (Forall2_fmap_r f) in H.
  eapply Forall2_impl; [exact H|]. intros x y Hxy. simpl in Hxy.
  eapply same_galaxy_trans; [exact Hxy|apply Hf].
Qed.

Variable shift : args -> Z -> maxshift_t -> Rng.np (list Q * list Q).
Variable read : string -> res (list wld_row).

(** What a successful run of lines 330-351 went through. *)
Lemma centered_group_Ok Args name (catalog : table) g bc g1 :
  centered_group shift read Args name catalog g = Ok (bc, g1) ->
  exists wld gid,
    read name = Ok wld /\ gid ∈ group_ids wld /\
    Forall2 same_galaxy bc (concat (group_members wld gid catalog)).
Proof.
  unfold centered_group.
  intros (wld & g2 & [Hread ->]%lift_Ok & H)%bind_Ok.
  apply bind_Ok in H as (gid & g3 & [Hgid _]%choice1_Ok & H).
  apply bind_Ok in H as (bc0 & g4 & [Hbc0 ->]%lift_Ok & H).
  apply bind_Ok in H as ([dx dy] & g5 & _ & [Hbc ->]%lift_Ok).
  exists wld, gid. do 2 (split; [done|]).
  unfold vstack in Hbc0.
  destruct (group_members wld gid catalog) as [|t ts] eqn:Hm; [done|].
  injection Hbc0 as <-.
  apply shift_centers_Ok in Hbc as (_ & _ & _ & _ & _ & _ & HF).
  repeat (apply Forall2_same_galaxy_fmap in HF;
          [|intros; (apply same_galaxy_set_ra || apply same_galaxy_set_dec)]).
  exact HF.
Qed.

Lemma centered_group_total Args name (catalog : table) g wld :
  shift_returns shift -> read name = Ok wld -> group_ids wld <> [] ->
  exists bc g1, centered_group shift read Args name catalog g = Ok (bc, g1).
Proof.
  intros Hs Hread Hids. unfold centered_group.
  rewrite Hread. cbn [Rng.lift]. erewrite bind_step by reflexivity.
  destruct (choice1_total (group_ids wld) g Hids) as [gid Hgid].
  rewrite (bind_step _ _ _ _ _ Hgid).
  apply choice1_Ok in Hgid as [(w & Hw & Hg & _)%elem_of_group_ids _].
  destruct (group_members wld gid catalog) as [|t ts] eqn:Hm.
  { exfalso. unfold group_members in Hm.
    apply fmap_nil_inv, fmap_nil_inv in Hm.
    assert (Hin : w ∈ List.filter (fun w => (grp_id w =? gid)%Z) wld).
    { apply elem_of_List_filter. split; [done|lia]. }
    rewrite Hm in Hin. by apply elem_of_nil in Hin. }
  unfold vstack. cbn [Rng.lift]. erewrite bind_step by reflexivity.
  destruct (Hs Args 1%Z (MaxShift (3 * pixel_scale Args) 1)
              (snd (Rng.next g))) as (dx & dy & g5 & Hshift & Hdx & Hdy).
  rewrite (bind_step _ _ _ _ _ Hshift).
  match goal with
  | |- context [shift_centers ?t0 dx dy] =>
      destruct (shift_centers_total t0 dx dy) as [bc Hbc]; [by right..|]
  end.
  exists bc, g5. by rewrite Hbc.
Qed.

Lemma centered_group_no_group Args name (catalog : table) g wld :
  read name = Ok wld -> group_ids wld = [] ->
  centered_group shift read Args name catalog g = Raise ValueError.
Proof.
  intros Hread Hids. unfold centered_group.
  rewrite Hread. cbn [Rng.lift]. erewrite bind_step by reflexivity.
  apply bind_Raise. rewrite Hids. apply choice1_nil.
Qed.

Lemma centered_group_unreadable Args name (catalog : table) g e :
  read name = Raise e ->
  centered_group shift read Args name catalog g = Raise e.
Proof.
  intros Hread. unfold centered_group. apply bind_Raise. by rewrite Hread.
Qed.

(** A selection without replacement from a table is matched, row by row,
    by a selection without replacement from any table related to it. *)
Lemma submseteq_Forall2 {A B} (R : A -> B -> Prop) (l k : list A) :
  l ⊆+ k -> forall k', Forall2 R k k' ->
  exists l', l' ⊆+ k' /\ Forall2 R l l'.
Proof.
  induction 1 as [|x l1 l2 _ IH|x y l|x l1 l2 _ IH|l1 l2 l3 _ IH1 _ IH2];
    intros k' Hk'.
  - apply Forall2_nil_inv_l in Hk' as ->. by exists [].
  - apply Forall2_cons_inv_l in Hk' as (x' & k2 & Hx & Hk2 & ->).
    destruct (IH _ Hk2) as (l' & Hsub & HF).
    exists (x' :: l'). split; [by apply submseteq_skip|by constructor].
  - apply Forall2_cons_inv_l in Hk' as (x' & k2 & Hx & Hk2 & ->).
    apply Forall2_cons_inv_l in Hk2 as (y' & k3 & Hy & Hk3 & ->).
    exists (y' :: x' :: k3). split; [apply submseteq_swap|].
    by repeat constructor.
  - apply Forall2_cons_inv_l in Hk' as (x' & k2 & Hx & Hk2 & ->).
    destruct (IH _ Hk2) as (l' & Hsub & HF).
    exists l'. split; [by apply submseteq_cons|done].
  - destruct (IH2 _ Hk') as (l2' & Hsub2 & HF2).
    destruct (IH1 _ HF2) as (l1' & Hsub1 & HF1).
    exists l1'. split; [by etrans|done].
Qed.

Lemma inside_lt Args (x : Q) :
  inside Args x = true -> (Qabs x < stamp_size Args / 2 - 3)%Q.
Proof.
  unfold inside. intros H%negb_true_iff. apply Qnot_le_lt.
  intros Hle%Qle_bool_iff. congruence.
Qed.

(** What a successful run of the group sampler went through. *)
Lemma group_sampling_Ok Args (catalog : table) g out g' :
  group_sampling_function shift read Args catalog g = Ok (out, g') ->
  exists name bc g1,
    wld_catalog_name Args = Some name /\
    centered_group shift read Args name catalog g = Ok (bc, g1) /\
    out ⊆+ List.filter (in_stamp Args) bc /\
    (List.filter (in_stamp Args) bc = []
     \/ ((0 <= max_number Args)%Z /\
         Z.of_nat (length out)
         = Z.min (Z.of_nat (length (List.filter (in_stamp Args) bc)))
                 (max_number Args))).
Proof.
  unfold group_sampling_function.
  destruct (wld_catalog_name Args) as [name|]; [|done].
  intros (bc & g1 & Hbc & H)%bind_Ok.
  exists name, bc, g1. do 2 (split; [done|]).
  destruct (Nat.eqb_spec (length (List.filter (in_stamp Args) bc)) 0)
    as [Hz|Hnz].
  - injection H as <- <-. split; [done|]. left. by apply nil_length_inv.
  - apply bind_Ok in H as (select & g2 & Hsel & [= <- <-]).
    apply choice_no_replace_Ok in Hsel as (Hnum & Hlen & Hnd & Hlt).
    split; [by apply index_submseteq|]. right.
    rewrite index_length by done. lia.
Qed.

End GroupFacts.

Lemma submseteq_NoDup {A} (l k : list A) : l ⊆+ k -> NoDup k -> NoDup l.
Proof.
  intros [rest Hperm]%submseteq_Permutation. rewrite Hperm.
  by intros [? _]%NoDup_app.
Qed.

(** The claim as first stated bounds the number of rows by [max_number]
    for every [Args].  With a negative [max_number] and a group whose
    members all fall outside the stamp, the function returns the empty
    table at line 357, before [max_number] is read. *)
Lemma group_sampling_negative_max_counterexample :
  exists out g',
    Utils.group_sampling_function Sample.fixed_shift Sample.read_pair
      Sample.negative_args Sample.far_apart (Sample.constant 1)
    = Ok (out, g') /\
    ~ (Z.of_nat (length out) <= Utils.max_number Sample.negative_args)%Z.
Proof.
  eexists _, _. split; [vm_compute; reflexivity|]. simpl. lia.
Qed.

(** C6 (amended). For every catalog and every [Args] carrying
    [wld_catalog_name] with [max_number >= 0], the table returned by
    [group_sampling_function] has at most [max_number] rows; its rows are
    selected without replacement from the catalog rows of one group of the
    WLD catalog with [grp_size >= 2] (no row of the group's table is taken
    twice, so the selection has no duplicates when that table has none);
    and every returned row has [|ra| < stamp_size/2 - 3] and
    [|dec| < stamp_size/2 - 3]. *)
Theorem group_sampling_blend
    (shift : Utils.args -> Z -> Utils.maxshift_t -> Rng.np (list Q * list Q))
    (read : string -> res (list Utils.wld_row))
    (Args : Utils.args) (catalog : Utils.table) (g : Rng.state)
    (out : Utils.table) (g' : Rng.state) :
  (0 <= Utils.max_number Args)%Z ->
  Utils.group_sampling_function shift read Args catalog g = Ok (out, g') ->
  (Z.of_nat (length out) <= Utils.max_number Args)%Z /\
  (exists name wld gid srcs,
     Utils.wld_catalog_name Args = Some name /\ read name = Ok wld /\
     (exists w, w ∈ wld /\ Utils.grp_id w = gid /\ (2 <= Utils.grp_size w)%Z) /\
     srcs ⊆+ concat (Utils.group_members wld gid catalog) /\
     (NoDup (concat (Utils.group_members wld gid catalog)) -> NoDup srcs) /\
     (forall src, src ∈ srcs ->
        src ∈ catalog /\
        exists w, w ∈ wld /\ Utils.grp_id w = gid
                  /\ Utils.galtileid src = Utils.db_id w) /\
     Forall2 Utils.same_galaxy out srcs) /\
  (forall row, row ∈ out ->
     (Qabs (Utils.ra row) < Utils.stamp_size Args / 2 - 3)%Q /\
     (Qabs (Utils.dec row) < Utils.stamp_size Args / 2 - 3)%Q).
Proof.
  intros Hmax H.
  apply group_sampling_Ok in H as (name & bc & g1 & Hname & Hbc & Hsub & Hlen).
  apply centered_group_Ok in Hbc as (wld & gid & Hread & Hgid & HF).
  split; [|split].
  - destruct Hlen as [Hnil|[_ Hlen]]; [|lia].
    rewrite Hnil in Hsub. apply submseteq_length in Hsub. simpl in Hsub. lia.
  - assert (Hsub' : out ⊆+ bc)
      by (etrans; [exact Hsub|apply List_filter_submseteq]).
    destruct (submseteq_Forall2 _ _ _ Hsub' _ HF) as (srcs & Hsrcs & HFs).
    exists name, wld, gid, srcs. repeat split; try done.
    + by apply elem_of_group_ids.
    + by apply submseteq_NoDup.
    + eapply elem_of_group_members, elem_of_submseteq; eauto.
    + eapply (elem_of_group_members wld gid catalog), elem_of_submseteq; eauto.
  - intros row Hrow. eapply elem_of_submseteq in Hrow; [|exact Hsub].
    apply elem_of_List_filter in Hrow as [_ [Hra Hdec]%andb_prop].
    split; by apply inside_lt.
Qed.

Lemma group_sampling_blend_witness :
  exists out g',
    Utils.group_sampling_function Sample.fixed_shift Sample.read_pair
      Sample.default_args Sample.two_galaxies (Sample.constant 1)
    = Ok (out, g') /\
    (Z.of_nat (length out) <= Utils.max_number Sample.default_args)%Z /\
    (exists name wld gid srcs,
       Utils.wld_catalog_name Sample.default_args = Some name /\
       Sample.read_pair name = Ok wld /\
       (exists w, w ∈ wld /\ Utils.grp_id w = gid
                  /\ (2 <= Utils.grp_size w)%Z) /\
       srcs ⊆+ concat (Utils.group_members wld gid Sample.two_galaxies) /\
       (NoDup (concat (Utils.group_members wld gid Sample.two_galaxies))
        -> NoDup srcs) /\
       (forall src, src ∈ srcs ->
          src ∈ Sample.two_galaxies /\
          exists w, w ∈ wld /\ Utils.grp_id w = gid
                    /\ Utils.galtileid src = Utils.db_id w) /\
       Forall2 Utils.same_galaxy out srcs) /\
    (forall row, row ∈ out ->
       (Qabs (Utils.ra row)
        < Utils.stamp_size Sample.default_args / 2 - 3)%Q /\
       (Qabs (Utils.dec row)
        < Utils.stamp_size Sample.default_args / 2 - 3)%Q).
Proof.
  eexists _, _. split; [vm_compute; reflexivity|].
  eapply (group_sampling_blend Sample.fixed_shift Sample.read_pair
            Sample.default_args Sample.two_galaxies (Sample.constant 1)).
  - vm_compute. discriminate.
  - vm_compute. reflexivity.
Defined.

(** The claim as first stated says the function raises only when [Args]
    has no attribute [wld_catalog_name].  With the attribute present and a
    readable WLD catalog that holds isolated galaxies only,
    [np.random.choice] is handed an empty array of group ids and raises
    ValueError. *)
Lemma group_sampling_isolated_counterexample :
  ~ ((exists e,
        Utils.group_sampling_function Sample.fixed_shift Sample.read_isolated
          Sample.default_args Sample.two_galaxies (Sample.constant 1)
        = Raise e)
     <-> Utils.wld_catalog_name Sample.default_args = None).
Proof.
  intros [H _].
  assert (Hnone : Utils.wld_catalog_name Sample.default_args = None).
  { apply H. exists ValueError. vm_compute. reflexivity. }
  discriminate Hnone.
Qed.

(** C9 (amended). [group_sampling_function] raises its own exception when
    [Args] has no attribute [wld_catalog_name].  With the attribute present
    it raises what reading the WLD catalog raises; with a readable catalog
    it raises ValueError when no group has [grp_size >= 2], and otherwise
    builds the centred group: when every member fails the stamp-boundary
    cut it returns the empty table, whatever [max_number] is; when some
    member passes, it returns [min(len(no_boundary), max_number)] rows for
    [max_number >= 0] and raises ValueError for a negative [max_number]. *)
Theorem group_sampling_exceptions
    (shift : Utils.args -> Z -> Utils.maxshift_t -> Rng.np (list Q * list Q))
    (read : string -> res (list Utils.wld_row))
    (Args : Utils.args) (catalog : Utils.table) (g : Rng.state) :
  Utils.shift_returns shift ->
  let run := Utils.group_sampling_function shift read Args catalog g in
  (Utils.wld_catalog_name Args = None ->
   run = Raise (Exception
     "A pre-run WLD catalog  name should be input as Args.wld_catalog_name")) /\
  (forall name, Utils.wld_catalog_name Args = Some name ->
     (forall e, read name = Raise e -> run = Raise e) /\
     (forall wld, read name = Ok wld ->
        (Utils.group_ids wld = [] -> run = Raise ValueError) /\
        (Utils.group_ids wld <> [] ->
         exists bc g1,
           Utils.centered_group shift read Args name catalog g = Ok (bc, g1) /\
           let no_boundary := List.filter (Utils.in_stamp Args) bc in
           (no_boundary = [] -> run = Ok ([], g1)) /\
           (no_boundary <> [] -> (0 <= Utils.max_number Args)%Z ->
            exists out g',
              run = Ok (out, g') /\
              Z.of_nat (length out)
              = Z.min (Z.of_nat (length no_boundary)) (Utils.max_number Args)) /\
           (no_boundary <> [] -> (Utils.max_number Args < 0)%Z ->
            run = Raise ValueError)))).
Proof.
  intros Hs run. unfold run, Utils.group_sampling_function. split.
  { by intros ->. }
  intros name ->. split.
  { intros e He. apply bind_Raise. by apply centered_group_unreadable. }
  intros wld Hread. split.
  { intros Hids. apply bind_Raise.
    by apply (centered_group_no_group _ _ _ _ _ _ wld). }
  intros Hids.
  destruct (centered_group_total shift read Args name catalog g wld)
    as (bc & g1 & Hbc); [done..|].
  exists bc, g1. split; [done|].
  rewrite (bind_step _ _ _ _ _ Hbc).
  set (no_boundary := List.filter (Utils.in_stamp Args) bc).
  split; [|split].
  - by intros ->.
  - intros Hne Hmax. destruct (Nat.eqb_spec (length no_boundary) 0) as [Hz|_].
    { by apply nil_length_inv in Hz. }
    set (num := Z.min _ _).
    destruct (Rng.choice_no_replace (length no_boundary) num g1)
      as [[select g2]|e] eqn:Hsel.
    + rewrite (bind_step _ _ _ _ _ Hsel). eexists _, _. split; [done|].
      apply choice_no_replace_Ok in Hsel as (_ & Hlen & _ & Hlt).
      rewrite index_length by done. unfold num in *. lia.
    + destruct (choice_no_replace_total (length no_boundary) num g1)
        as (? & ? & Hok); [unfold num; lia|congruence].
  - intros Hne Hmax. destruct (Nat.eqb_spec (length no_boundary) 0) as [Hz|_].
    { by apply nil_length_inv in Hz. }
    apply bind_Raise, choice_no_replace_negative. lia.
Qed.

Lemma group_sampling_exceptions_witness :
  Utils.group_sampling_function Sample.fixed_shift Sample.read_isolated
    Sample.default_args Sample.two_galaxies (Sample.constant 1)
  = Raise ValueError
  /\ exists bc g1,
       Utils.centered_group Sample.fixed_shift Sample.read_pair
         Sample.default_args "wld.fits" Sample.two_galaxies
         (Sample.constant 1)
       = Ok (bc, g1).
Proof.
  split.
  - destruct (group_sampling_exceptions Sample.fixed_shift
                Sample.read_isolated Sample.default_args Sample.two_galaxies
                (Sample.constant 1) fixed_shift_returns) as [_ H].
    destruct (H "wld.fits"%string eq_refl) as [_ Hread].
    destruct (Hread Sample.wld_isolated eq_refl) as [Hnone _].
    apply Hnone. reflexivity.
  - destruct (group_sampling_exceptions Sample.fixed_shift
                Sample.read_pair Sample.default_args Sample.two_galaxies
                (Sample.constant 1) fixed_shift_returns) as [_ H].
    destruct (H "wld.fits"%string eq_refl) as [_ Hread].
    destruct (Hread Sample.wld_pair eq_refl) as [_ Hsome].
    destruct Hsome as (bc & g1 & Hbc & _); [by vm_compute|].
    by exists bc, g1.
Defined.

(** ** The measurement classes *)



(* --------------------------------------------------------------------- *)
(** ** Further properties of the code                                     *)
(* --------------------------------------------------------------------- *)

(** ** More on the detection efficiency matrix *)

Section EffMore.

Import Eff.

(** Two matrices of one shape with the same entries are equal. *)
Lemma matrix_ext (r c : nat) (m m' : matrix) :
  has_shape r c m -> has_shape r c m' ->
  (forall j i, (j < r)%nat -> (i < c)%nat -> entry m j i = entry m' j i) ->
  m = m'.
Proof.
  intros [Hr Hc] [Hr' Hc'] Hent. apply list_eq. intros j.
  destruct (decide (j < r)%nat) as [Hj|Hj].
  - destruct (lookup_lt_is_Some_2 m j) as [row Hrow]; [lia|].
    destruct (lookup_lt_is_Some_2 m' j) as [row' Hrow']; [lia|].
    rewrite Hrow, Hrow'. f_equal. apply list_eq. intros i.
    assert (Hl : length row = c).
    { rewrite Forall_forall in Hc. eapply Hc, list_elem_of_lookup_2, Hrow. }
    assert (Hl' : length row' = c).
    { rewrite Forall_forall in Hc'. eapply Hc', list_elem_of_lookup_2, Hrow'. }
    destruct (decide (i < c)%nat) as [Hi|Hi].
    + specialize (Hent j i Hj Hi). unfold entry in Hent.
      by rewrite Hrow, Hrow' in Hent.
    + by rewrite !lookup_ge_None_2 by lia.
  - by rewrite !lookup_ge_None_2 by lia.
Qed.

(** The matrix is a function of the counts it tabulates. *)
Lemma eff_matrix_counts_ext (t t' : summary) (num : Z) :
  (forall i j, (i < Z.to_nat (num + 1))%nat -> (j < Z.to_nat (num + 2))%nat ->
     count_ij t i j = count_ij t' i j) ->
  get_detection_eff_matrix t num = get_detection_eff_matrix t' num.
Proof.
  intros Hcount. unfold get_detection_eff_matrix.
  destruct (num + 1 <? 0)%Z; [done|].
  destruct (tabulate_spec t num) as [Hs He].
  destruct (tabulate_spec t' num) as [Hs' He'].
  rewrite (matrix_ext _ _ _ _ Hs Hs'); [done|].
  intros j i Hj Hi. by rewrite He, He', Hcount.
Qed.

Lemma count_ij_Permutation (t t' : summary) i j :
  t ≡ₚ t' -> count_ij t i j = count_ij t' i j.
Proof.
  unfold count_ij. induction 1 as [|x l l' _ IH|x y l|l l' l'' _ IH1 _ IH2].
  - done.
  - cbn [List.filter]. destruct (_ && _); cbn [length]; by rewrite IH.
  - cbn [List.filter]. by destruct (_ && _), (_ && _).
  - by rewrite IH1.
Qed.

Lemma count_ij_tabulated (t : summary) (num : Z) i j :
  (i < Z.to_nat (num + 1))%nat -> (j < Z.to_nat (num + 2))%nat ->
  count_ij (List.filter (EffRows.tabulated num) t) i j = count_ij t i j.
Proof.
  intros Hi Hj. unfold count_ij. induction t as [|x t IH]; [done|].
  cbn [List.filter]. unfold EffRows.tabulated at 1.
  destruct (Z.eqb_spec (col0 x) (Z.of_nat i)) as [H0|H0],
           (Z.eqb_spec (col1 x) (Z.of_nat j)) as [H1|H1];
    cbn [andb];
    destruct (Z.leb_spec 0 (col0 x)), (Z.leb_spec (col0 x) num),
             (Z.leb_spec 0 (col1 x)), (Z.leb_spec (col1 x) (num + 1));
    cbn [andb List.filter length];
    rewrite ?(proj2 (Z.eqb_eq _ _) H0), ?(proj2 (Z.eqb_eq _ _) H1),
            ?(proj2 (Z.eqb_neq _ _) H0), ?(proj2 (Z.eqb_neq _ _) H1);
    cbn [andb length]; rewrite ?IH; try done; lia.
Qed.

End EffMore.

(** X1. The efficiency matrix does not depend on the order of the rows of
    the detection summary. *)
Theorem eff_matrix_permutation (t t' : Eff.summary) (num : Z) :
  t ≡ₚ t' ->
  Eff.get_detection_eff_matrix t num = Eff.get_detection_eff_matrix t' num.
Proof.
  intros Hperm. apply eff_matrix_counts_ext.
  intros i j _ _. by apply count_ij_Permutation.
Qed.

Lemma eff_matrix_permutation_witness :
  Eff.get_detection_eff_matrix
    [Eff.SummaryRow 1 1 []; Eff.SummaryRow 2 1 []; Eff.SummaryRow 1 0 []] 2
  = Eff.get_detection_eff_matrix
      [Eff.SummaryRow 1 0 []; Eff.SummaryRow 1 1 []; Eff.SummaryRow 2 1 []] 2.
Proof.
  apply eff_matrix_permutation.
  change ([Eff.SummaryRow 1 1 []; Eff.SummaryRow 2 1 []] ++ [Eff.SummaryRow 1 0 []]
          ≡ₚ [Eff.SummaryRow 1 0 []] ++ [Eff.SummaryRow 1 1 []; Eff.SummaryRow 2 1 []]).
  apply Permutation_app_comm.
Defined.

(** X2. Rows of the summary whose true count is not in [0 .. num] or whose
    detected count is not in [0 .. num+1] have no effect on the matrix:
    dropping them from the summary gives the same result. *)
Theorem eff_matrix_ignores_untabulated (t : Eff.summary) (num : Z) :
  Eff.get_detection_eff_matrix (List.filter (EffRows.tabulated num) t) num
  = Eff.get_detection_eff_matrix t num.
Proof.
  apply eff_matrix_counts_ext. intros i j Hi Hj.
  by apply count_ij_tabulated.
Qed.

Lemma inject_nat_nonneg (n : nat) : (0 <= inject_Z (Z.of_nat n))%Q.
Proof. unfold Qle. simpl. lia. Qed.

Lemma inject_nat_le (a b : nat) :
  (a <= b)%nat -> (inject_Z (Z.of_nat a) <= inject_Z (Z.of_nat b))%Q.
Proof. intros H. unfold Qle. simpl. lia. Qed.

(** A count over its column's norm, as a percentage. *)
Lemma percentage_bounds (c n : nat) (N : Q) :
  (c <= n)%nat ->
  (if decide (n = 0%nat) then N == 1 else N == inject_Z (Z.of_nat n)) ->
  (0 <= inject_Z (Z.of_nat c) / N * 100 <= 100)%Q.
Proof.
  intros Hcn HN. destruct (decide (n = 0%nat)) as [->|Hn].
  - assert (c = 0%nat) as -> by lia. rewrite HN. by vm_compute.
  - assert (Hpos : (0 < inject_Z (Z.of_nat n))%Q).
    { unfold Qlt. simpl. lia. }
    rewrite HN. split.
    + apply Qmult_le_0_compat; [|by vm_compute].
      apply Qle_shift_div_l; [done|]. rewrite Qmult_0_l.
      apply inject_nat_nonneg.
    + apply Qle_trans with (1 * 100)%Q; [|by vm_compute].
      apply Qmult_le_compat_r; [|by vm_compute].
      apply Qle_shift_div_r; [done|]. rewrite Qmult_1_l.
      by apply inject_nat_le.
Qed.

(** X3. Every entry of the efficiency matrix is a percentage: it lies
    between 0 and 100. *)
Theorem eff_matrix_percentages (t : Eff.summary) (num : Z) (m : Eff.matrix)
    (j i : nat) (q : Q) :
  Eff.get_detection_eff_matrix t num = Ok m ->
  Eff.entry m j i = Some q ->
  (0 <= q <= 100)%Q.
Proof.
  intros Hm Hq.
  assert (Hnum : (0 <= num + 1)%Z).
  { unfold Eff.get_detection_eff_matrix in Hm.
    destruct (Z.ltb_spec (num + 1) 0); [done|lia]. }
  destruct (eff_matrix_final t num Hnum) as (M & HM & Hshape & Hcols).
  rewrite HM in Hm. injection Hm as <-.
  destruct (decide (j < Z.to_nat (num + 2))%nat) as [Hj|Hj].
  2: { rewrite (entry_None_row _ _ _ _ _ Hshape) in Hq; [done|lia]. }
  destruct (decide (i < Z.to_nat (num + 1))%nat) as [Hi|Hi].
  2: { unfold Eff.entry in Hq. destruct Hshape as [_ Hc].
       destruct (M !! j) as [row|] eqn:Hrow; [|done]. simpl in Hq.
       rewrite Forall_forall in Hc.
       rewrite lookup_ge_None_2 in Hq; [done|].
       rewrite (Hc row); [lia|]. eapply list_elem_of_lookup_2, Hrow. }
  destruct (Hcols i Hi) as (N & HN & Hent).
  rewrite Hent in Hq by done. injection Hq as <-.
  eapply percentage_bounds; [|exact HN].
  by apply count_ij_le_tabulated.
Qed.

Lemma eff_matrix_percentages_witness :
  exists m q,
    Eff.get_detection_eff_matrix
      [Eff.SummaryRow 1 1 []; Eff.SummaryRow 1 0 []; Eff.SummaryRow 1 1 []] 1
    = Ok m /\
    Eff.entry m 1 1 = Some q /\ (0 <= q <= 100)%Q.
Proof.
  eexists _, _. split; [reflexivity|]. split; [reflexivity|].
  eapply (eff_matrix_percentages
            [Eff.SummaryRow 1 1 []; Eff.SummaryRow 1 0 []; Eff.SummaryRow 1 1 []]
            1 _ 1%nat 1%nat); reflexivity.
Defined.

(** X4. Perfect detection puts 100 on the diagonal: when the summary has
    rows with true count [i <= num] and every one of them has detected
    count [i], entry [i, i] is 100 and every other entry of column [i]
    is 0. *)
Theorem eff_matrix_perfect_detection (t : Eff.summary) (num : Z) (i : nat) :
  (Z.of_nat i <= num)%Z ->
  Eff.count_true t i <> 0%nat ->
  (forall r, r ∈ t -> Eff.col0 r = Z.of_nat i -> Eff.col1 r = Z.of_nat i) ->
  exists m,
    Eff.get_detection_eff_matrix t num = Ok m /\
    forall j : nat, (Z.of_nat j <= num + 1)%Z ->
      exists q, Eff.entry m j i = Some q /\
                q == (if decide (j = i) then 100 else 0).
Proof.
  intros Hi Htrue Hdet.
  destruct (eff_matrix_final t num) as (M & HM & _ & Hcols); [lia|].
  exists M. split; [exact HM|]. intros j Hj.
  destruct (Hcols i) as (N & HN & Hent); [lia|].
  assert (Hcount : forall k, Eff.count_ij t i k
                     = if decide (k = i) then Eff.count_true t i else 0%nat).
  { intros k. unfold Eff.count_ij, Eff.count_true. clear -Hdet.
    induction t as [|x t IH]; [by case_decide|]. cbn [List.filter].
    assert (IH' := IH (fun r Hr => Hdet r (list_elem_of_further _ _ _ Hr))).
    destruct (Z.eqb_spec (Eff.col0 x) (Z.of_nat i)) as [H0|H0];
      cbn [andb]; [|exact IH'].
    rewrite (Hdet x (list_elem_of_here _ _) H0).
    destruct (Z.eqb_spec (Z.of_nat i) (Z.of_nat k)) as [Hk|Hk];
      case_decide; subst; cbn [length]; try lia; by rewrite IH', ?decide_True,
        ?decide_False by lia. }
  assert (Htab : Eff.count_tabulated t (Z.to_nat (num + 2)) i
                 = Eff.count_true t i).
  { rewrite <- sum_count_ij.
    assert (Hsum : forall n, sum_list (Eff.count_ij t i <$> seq 0 n)
                     = if decide (i < n)%nat then Eff.count_true t i else 0%nat).
    { induction n as [|n IHn]; [by case_decide|].
      rewrite seq_S, fmap_app, sum_list_with_app, IHn. simpl.
      rewrite Hcount. repeat case_decide; lia. }
    rewrite Hsum, decide_True; [done|lia]. }
  rewrite Htab, decide_False in HN by done.
  eexists. split; [apply Hent; lia|].
  rewrite Hcount, HN. case_decide.
  - field. by intros ?%inject_nat_eq0.
  - simpl. unfold Qdiv. ring.
Qed.

Lemma eff_matrix_perfect_detection_witness :
  exists m,
    Eff.get_detection_eff_matrix
      [Eff.SummaryRow 2 2 []; Eff.SummaryRow 1 0 []; Eff.SummaryRow 2 2 []] 2
    = Ok m /\
    forall j : nat, (Z.of_nat j <= 2 + 1)%Z ->
      exists q, Eff.entry m j 2 = Some q /\
                q == (if decide (j = 2%nat) then 100 else 0).
Proof.
  apply (eff_matrix_perfect_detection
           [Eff.SummaryRow 2 2 []; Eff.SummaryRow 1 0 []; Eff.SummaryRow 2 2 []]
           2 2%nat); [lia|by vm_compute|].
  intros r Hr. repeat (apply elem_of_cons in Hr as [->|Hr]); simpl;
    [done|discriminate|done|by apply elem_of_nil in Hr].
Defined.

(** ** More on the selection and the loader *)

(** X5. [basic_selection_function] works row by row: selecting from two
    catalogs stacked on each other is stacking the two selections. *)
Theorem basic_selection_app (c1 c2 : Utils.table) :
  Utils.basic_selection_function (c1 ++ c2)
  = Utils.basic_selection_function c1 ++ Utils.basic_selection_function c2.
Proof. rewrite !basic_selection_filter. apply List.filter_app. Qed.

Lemma List_filter_sublist {A} (p : A -> bool) (l : list A) :
  List.filter p l `sublist_of` l.
Proof.
  induction l as [|x l IH]; [done|]. simpl.
  destruct (p x); [by apply sublist_skip|by apply sublist_cons].
Qed.

(** X6. [basic_selection_function] only drops rows: its output is the
    input with some rows removed, the others unchanged and in their
    order; and it keeps every row exactly when every row passes the cut. *)
Theorem basic_selection_sublist (catalog : Utils.table) :
  Utils.basic_selection_function catalog `sublist_of` catalog /\
  (Utils.basic_selection_function catalog = catalog
   <-> forall g, g ∈ catalog -> Utils.selected g = true).
Proof.
  rewrite basic_selection_filter. split; [apply List_filter_sublist|].
  induction catalog as [|x l IH]; simpl.
  - split; [by intros _ g ?%elem_of_nil|done].
  - destruct (Utils.selected x) eqn:Hx.
    + split.
      * intros [= Hl]. intros g [->|Hg]%elem_of_cons; [done|].
        by apply IH.
      * intros Hall. f_equal. apply IH. intros g Hg. apply Hall. by right.
    + split.
      * intros Heq. exfalso.
        pose proof (sublist_length _ _ (List_filter_sublist Utils.selected l))
          as Hlen.
        rewrite Heq in Hlen. simpl in Hlen. lia.
      * intros Hall. rewrite Hall in Hx; [done|left].
Qed.

(** X7. Loading with [basic_selection_function] as the selection function
    returns the rows of the file's table that pass the cut, in the file's
    order; a failed read is raised as it is, with nothing printed. *)
Theorem load_catalog_basic_selection
    (table_read : string -> GetInputCatalog.table_format
                  -> res (list Utils.galaxy))
    (Args : Utils.args) :
  let loaded := GetInputCatalog.load_catalog _ table_read Args None in
  let selected :=
    GetInputCatalog.load_catalog _ table_read Args
      (Some (fun t => Ok (Utils.basic_selection_function t))) in
  match snd loaded with
  | Ok table =>
      snd selected = Ok (List.filter Utils.selected table) /\
      fst loaded `prefix_of` fst selected
  | Raise e => selected = ([], Raise e) /\ loaded = ([], Raise e)
  end.
Proof.
  unfold GetInputCatalog.load_catalog.
  destruct (GetInputCatalog.splitext (Utils.catalog_name Args)) as [name ext].
  destruct (String.eqb ext ".fits");
    (destruct (table_read _ _) as [table|e]; [|done]);
    cbn [fst snd]; rewrite basic_selection_filter;
    (split; [done|by apply prefix_app_r]).
Qed.

(** ** More on the samplers *)

Section SamplingMore.

Import Utils.

Variable shift : args -> Z -> maxshift_t -> Rng.np (list Q * list Q).

Lemma choice_nil_raises {A} (size : Z) g :
  (size <> 0)%Z -> Rng.choice (@nil A) size g = Raise ValueError.
Proof.
  intros Hs. unfold Rng.choice. destruct (Z.ltb_spec size 0); [done|].
  destruct (Z.to_nat size) as [|n] eqn:Hn; [lia|].
  cbn [Rng.choice_n]. unfold Rng.bind. by rewrite choice1_nil.
Qed.

Lemma size_cond_same (row src : galaxy) :
  same_galaxy row src -> size_cond row = size_cond src.
Proof. unfold same_galaxy. by intros ->. Qed.

(** The rows a successful run of the basic sampler draws from. *)
Lemma basic_sampling_members Args (catalog : table) g bc g' :
  basic_sampling_function shift Args catalog g = Ok (bc, g') ->
  exists srcs,
    Forall2 same_galaxy bc srcs /\
    forall src, src ∈ srcs ->
      src ∈ catalog /\ size_cond src = true /\ (i_ab src < 28)%Q.
Proof.
  unfold basic_sampling_function.
  intros (n & g1 & Hn & H)%bind_Ok.
  apply bind_Ok in H as (u & g2 & _ & H).
  apply bind_Ok in H as (first & g3 & Hfirst & H).
  apply bind_Ok in H as (others & g4 & Hothers & H).
  apply bind_Ok in H as (bc0 & g5 & [Hbc0 ->]%lift_Ok & H).
  apply bind_Ok in H as ([dx dy] & g6 & Hshift & [Hbc ->]%lift_Ok).
  injection Hbc0 as <-. rewrite app_nil_r in Hbc.
  apply choice_Ok in Hfirst as (_ & _ & Hin1).
  apply choice_Ok in Hothers as (_ & _ & Hin2).
  apply shift_centers_Ok in Hbc as (_ & _ & _ & _ & _ & _ & HF).
  apply (Forall2_same_galaxy_fmap (fun x => set_dec 0 (set_ra 0 x))) in HF;
    [|done].
  eexists. split; [exact HF|].
  assert (H28 : forall x : galaxy, (i_ab x <= 24)%Q \/ (i_ab x <= 253 # 10)%Q
                  -> (i_ab x < 28)%Q).
  { intros x [Hx|Hx]; (eapply Qle_lt_trans; [exact Hx|by vm_compute]). }
  intros src [Hsrc|Hsrc]%elem_of_app;
    apply index_elem in Hsrc as (k & Hk & Hlook);
    (split; [by eapply list_elem_of_lookup_2|]).
  - apply Hin1, where_lookup in Hk as (x & Hx & [Hc Hi]%andb_prop).
    simplify_eq. split; [done|]. apply H28. left. by apply Qle_bool_iff.
  - apply Hin2 in Hk. destruct (Qle_bool (9 # 10) u);
      apply where_lookup in Hk as (x & Hx & [Hc Hi]%andb_prop); simplify_eq;
      (split; [done|]).
    + apply Qnot_le_lt. intros Hle%Qle_bool_iff.
      apply negb_true_iff in Hi. congruence.
    + apply H28. right. by apply Qle_bool_iff.
Qed.

End SamplingMore.

(** X8. [basic_sampling_function] raises ValueError when [max_number] is
    not positive ([np.random.randint(0, max_number)] has nothing to draw
    from), whatever the catalog. *)
Theorem basic_sampling_needs_positive_max
    (shift : Utils.args -> Z -> Utils.maxshift_t -> Rng.np (list Q * list Q))
    (Args : Utils.args) (catalog : Utils.table) (g : Rng.state) :
  (Utils.max_number Args <= 0)%Z ->
  Utils.basic_sampling_function shift Args catalog g = Raise ValueError.
Proof.
  intros Hmax. unfold Utils.basic_sampling_function. apply bind_Raise.
  unfold Rng.randint. by destruct (Z.leb_spec (Utils.max_number Args) 0); [|lia].
Qed.

Lemma basic_sampling_needs_positive_max_witness :
  Utils.basic_sampling_function Sample.fixed_shift Sample.negative_args
    Sample.two_galaxies (Sample.constant 1) = Raise ValueError.
Proof.
  apply (basic_sampling_needs_positive_max Sample.fixed_shift
           Sample.negative_args Sample.two_galaxies (Sample.constant 1)).
  vm_compute. discriminate.
Defined.

(** X9. [basic_sampling_function] raises ValueError on a catalog that
    holds no galaxy with [0.2 < hypot(a_d, a_b) <= 2] and [i_ab <= 24], an
    empty catalog for one: there is no bright galaxy to start the blend
    with. *)
Theorem basic_sampling_needs_bright
    (shift : Utils.args -> Z -> Utils.maxshift_t -> Rng.np (list Q * list Q))
    (Args : Utils.args) (catalog : Utils.table) (g : Rng.state) :
  (forall b, b ∈ catalog -> Utils.size_cond b = true ->
             ~ (Utils.i_ab b <= 24)%Q) ->
  Utils.basic_sampling_function shift Args catalog g = Raise ValueError.
Proof.
  intros Hnone.
  destruct (Z.leb_spec (Utils.max_number Args) 0) as [Hmax|Hmax].
  { unfold Utils.basic_sampling_function. apply bind_Raise.
    unfold Rng.randint.
    by destruct (Z.leb_spec (Utils.max_number Args) 0); [|lia]. }
  unfold Utils.basic_sampling_function.
  destruct (randint_total 0 (Utils.max_number Args) g) as [n Hn]; [lia|].
  rewrite (bind_step _ _ _ _ _ Hn).
  destruct (random_total (snd (Rng.next g))) as [u Hu].
  rewrite (bind_step _ _ _ _ _ Hu).
  apply bind_Raise.
  replace (Np.where_ _ catalog) with (@nil nat); [by apply choice_nil_raises|].
  symmetry.
  destruct (Np.where_ (fun x => Utils.size_cond x && Qle_bool (Utils.i_ab x) 24)
              catalog) as [|k q] eqn:Hq; [done|].
  exfalso.
  destruct (proj1 (where_nonempty
              (fun x => Utils.size_cond x && Qle_bool (Utils.i_ab x) 24)
              catalog)) as (b & Hb & [Hc Hi]%andb_prop); [by rewrite Hq|].
  by apply (Hnone b Hb Hc), Qle_bool_iff.
Qed.

Lemma basic_sampling_needs_bright_witness :
  Utils.basic_sampling_function Sample.fixed_shift Sample.default_args
    [Sample.faint] (Sample.constant 1) = Raise ValueError.
Proof.
  apply (basic_sampling_needs_bright Sample.fixed_shift Sample.default_args
           [Sample.faint] (Sample.constant 1)).
  intros b ->%list_elem_of_singleton _ H. by vm_compute in H.
Defined.

(** X10. Every row of a blend returned by [basic_sampling_function] is a
    row of the catalog with [0.2 < hypot(a_d, a_b) <= 2] and [i_ab < 28]
    (the docstring's 25.3 is the cut of nine runs in ten only). *)
Theorem basic_sampling_rows_admissible
    (shift : Utils.args -> Z -> Utils.maxshift_t -> Rng.np (list Q * list Q))
    (Args : Utils.args) (catalog : Utils.table) (g : Rng.state)
    (bc : Utils.table) (g' : Rng.state) :
  Utils.basic_sampling_function shift Args catalog g = Ok (bc, g') ->
  forall row, row ∈ bc ->
    Utils.size_cond row = true /\ (Utils.i_ab row < 28)%Q /\
    exists src, src ∈ catalog /\ Utils.same_galaxy row src.
Proof.
  intros (srcs & HF & Hsrcs)%basic_sampling_members row Hrow.
  destruct (proj1 (list_elem_of_lookup _ _) Hrow) as [k Hk].
  destruct (Forall2_lookup_l _ _ _ _ _ HF Hk) as (src & Hsrc & Hsame).
  destruct (Hsrcs src) as (Hin & Hc & Hi);
    [by eapply list_elem_of_lookup_2|].
  rewrite (size_cond_same _ _ Hsame), (same_galaxy_i_ab _ _ Hsame).
  repeat split; [done..|]. by exists src.
Qed.

Lemma basic_sampling_rows_admissible_witness :
  exists bc g',
    Utils.basic_sampling_function Sample.fixed_shift Sample.default_args
      Sample.two_galaxies (Sample.constant 1) = Ok (bc, g') /\
    forall row, row ∈ bc ->
      Utils.size_cond row = true /\ (Utils.i_ab row < 28)%Q /\
      exists src, src ∈ Sample.two_galaxies /\ Utils.same_galaxy row src.
Proof.
  eexists _, _. split; [vm_compute; reflexivity|].
  eapply (basic_sampling_rows_admissible Sample.fixed_shift
            Sample.default_args Sample.two_galaxies (Sample.constant 1)).
  vm_compute. reflexivity.
Defined.

(** ** More on the group sampler *)

Section GroupMore.

Import Utils.

Lemma sum_affine (m d : Q) (l : list Q) :
  Np.sum ((fun x => (x - m) * 3600 + d)%Q <$> l)
  == ((Np.sum l - inject_Z (Z.of_nat (length l)) * m) * 3600
      + inject_Z (Z.of_nat (length l)) * d)%Q.
Proof.
  induction l as [|x l IH].
  - simpl. ring.
  - cbn [fmap list_fmap Np.sum fold_right length]. fold (Np.sum l).
    change (fold_right Qplus 0%Q (list_fmap _ _ ?f l))
      with (Np.sum (f <$> l)).
    rewrite IH, Nat2Z.inj_succ, <- Z.add_1_r, inject_Z_plus. ring.
Qed.

(** Centring on the mean and shifting by [d] leaves the mean at [d]. *)
Lemma mean_centered (d : Q) (l : list Q) :
  l <> [] ->
  Np.mean ((fun x => (x - Np.mean l) * 3600 + d)%Q <$> l) == d.
Proof.
  intros Hl. unfold Np.mean at 1. rewrite sum_affine, length_fmap.
  unfold Np.mean. field.
  intros H%inject_nat_eq0. by destruct l.
Qed.

Lemma iadd_single (col : list Q) (x : Q) :
  iadd col [x] = Ok ((fun c => c + x)%Q <$> col).
Proof.
  unfold iadd. destruct (Nat.eqb_spec (length [x]) (length col)) as [Hl|_];
    [|done].
  by destruct col as [|c [|? ?]].
Qed.

Variable shift : args -> Z -> maxshift_t -> Rng.np (list Q * list Q).
Variable read : string -> res (list wld_row).

(** The two coordinate columns of the centred group, from the rows
    stacked for the group and the shift drawn. *)
Lemma centered_group_columns Args name (catalog : table) g bc g1 :
  centered_group shift read Args name catalog g = Ok (bc, g1) ->
  exists (bc0 : table) dx dy g0,
    shift Args 1%Z (MaxShift (3 * pixel_scale Args) 1) g0
      = Ok ((dx, dy), g1) /\
    length bc = length bc0 /\
    iadd ((fun x => (x - Np.mean (ra <$> bc0)) * 3600)%Q <$> (ra <$> bc0)) dx
      = Ok (ra <$> bc) /\
    iadd ((fun x => (x - Np.mean (dec <$> bc0)) * 3600)%Q <$> (dec <$> bc0)) dy
      = Ok (dec <$> bc).
Proof.
  unfold centered_group.
  intros (wld & g2 & _ & H)%bind_Ok.
  apply bind_Ok in H as (gid & g3 & _ & H).
  apply bind_Ok in H as (bc0 & g4 & _ & H).
  apply bind_Ok in H as ([dx dy] & g5 & Hshift & [Hbc ->]%lift_Ok).
  exists bc0, dx, dy, g4. split; [exact Hshift|].
  apply shift_centers_Ok in Hbc as (ras & decs & Hra & Hdec & <- & <- & HF).
  split.
  { apply Forall2_length in HF. by rewrite !length_fmap in HF. }
  rewrite <- !list_fmap_compose in Hra, Hdec.
  rewrite <- !list_fmap_compose. split.
  - rewrite <- Hra. f_equal.
  - rewrite <- Hdec. f_equal.
Qed.

End GroupMore.

(** X11. The group is centred on the stamp up to the random shift: for a
    group with at least one galaxy in the catalog, the mean [ra] and the
    mean [dec] of the centred group (before the boundary cut) are the
    shifts [dx] and [dy] that [get_random_center_shift] returned. *)
Theorem centered_group_mean
    (shift : Utils.args -> Z -> Utils.maxshift_t -> Rng.np (list Q * list Q))
    (read : string -> res (list Utils.wld_row))
    (Args : Utils.args) (name : string) (catalog : Utils.table)
    (g : Rng.state) (bc : Utils.table) (g1 : Rng.state) :
  Utils.shift_returns shift ->
  Utils.centered_group shift read Args name catalog g = Ok (bc, g1) ->
  bc <> [] ->
  exists dx dy g0,
    shift Args 1%Z (Utils.MaxShift (3 * Utils.pixel_scale Args) 1) g0
      = Ok (([dx], [dy]), g1) /\
    Np.mean (Utils.ra <$> bc) == dx /\
    Np.mean (Utils.dec <$> bc) == dy.
Proof.
  intros Hs (bc0 & dx & dy & g0 & Hshift & Hlen & Hra & Hdec)
    %centered_group_columns Hne.
  destruct (Hs Args 1%Z (Utils.MaxShift (3 * Utils.pixel_scale Args) 1) g0)
    as (dx' & dy' & g' & Hshift' & Hdx & Hdy).
  rewrite Hshift in Hshift'. injection Hshift' as <- <- <-.
  destruct dx as [|x [|? ?]]; try done. destruct dy as [|y [|? ?]]; try done.
  exists x, y, g0. split; [done|].
  assert (Hne0 : bc0 <> []) by (destruct bc0, bc; done).
  rewrite iadd_single in Hra, Hdec.
  injection Hra as Hra. injection Hdec as Hdec.
  rewrite <- list_fmap_compose in Hra, Hdec.
  rewrite <- Hra, <- Hdec.
  split; apply mean_centered; by destruct bc0.
Qed.

Lemma centered_group_mean_witness :
  exists bc g1,
    Utils.centered_group Sample.fixed_shift Sample.read_pair
      Sample.default_args "wld.fits" Sample.two_galaxies (Sample.constant 1)
    = Ok (bc, g1) /\
    exists dx dy g0,
      Sample.fixed_shift Sample.default_args 1%Z
        (Utils.MaxShift (3 * Utils.pixel_scale Sample.default_args) 1) g0
        = Ok (([dx], [dy]), g1) /\
      Np.mean (Utils.ra <$> bc) == dx /\
      Np.mean (Utils.dec <$> bc) == dy.
Proof.
  eexists _, _. split; [vm_compute; reflexivity|].
  eapply (centered_group_mean Sample.fixed_shift Sample.read_pair
            Sample.default_args "wld.fits" Sample.two_galaxies
            (Sample.constant 1)).
  - exact fixed_shift_returns.
  - vm_compute. reflexivity.
  - discriminate.
Defined.

(** X12. When [max_number] is at least the number of group members inside
    the stamp, [group_sampling_function] returns all of them, each once,
    in a random order. *)
Theorem group_sampling_keeps_all
    (shift : Utils.args -> Z -> Utils.maxshift_t -> Rng.np (list Q * list Q))
    (read : string -> res (list Utils.wld_row))
    (Args : Utils.args) (catalog : Utils.table) (g : Rng.state)
    (out : Utils.table) (g' : Rng.state) :
  Utils.group_sampling_function shift read Args catalog g = Ok (out, g') ->
  exists name bc g1,
    Utils.wld_catalog_name Args = Some name /\
    Utils.centered_group shift read Args name catalog g = Ok (bc, g1) /\
    ((Z.of_nat (length (List.filter (Utils.in_stamp Args) bc))
      <= Utils.max_number Args)%Z ->
     out ≡ₚ List.filter (Utils.in_stamp Args) bc).
Proof.
  intros (name & bc & g1 & Hname & Hbc & Hsub & Hlen)
    %group_sampling_Ok.
  exists name, bc, g1. do 2 (split; [done|]). intros Hmax.
  apply submseteq_length_Permutation; [done|].
  destruct Hlen as [->|[_ Hlen]]; simpl; lia.
Qed.

Lemma group_sampling_keeps_all_witness :
  exists out g',
    Utils.group_sampling_function Sample.fixed_shift Sample.read_pair
      Sample.default_args Sample.two_galaxies (Sample.constant 1)
    = Ok (out, g') /\
    exists name bc g1,
      Utils.wld_catalog_name Sample.default_args = Some name /\
      Utils.centered_group Sample.fixed_shift Sample.read_pair
        Sample.default_args name Sample.two_galaxies (Sample.constant 1)
      = Ok (bc, g1) /\
      ((Z.of_nat (length (List.filter (Utils.in_stamp Sample.default_args) bc))
        <= Utils.max_number Sample.default_args)%Z ->
       out ≡ₚ List.filter (Utils.in_stamp Sample.default_args) bc).
Proof.
  eexists _, _. split; [vm_compute; reflexivity|].
  eapply (group_sampling_keeps_all Sample.fixed_shift Sample.read_pair
            Sample.default_args Sample.two_galaxies (Sample.constant 1)).
  vm_compute. reflexivity.
Defined.

(** ** The segmentation map *)

Section SegMapFacts.

Import SegMap.

Lemma seg_map_row (threshold : Q) (row : list Q) :
  (fun x => negb (Qeq_bool x 0))
    <$> zip_with (fun p old => if Qle_bool threshold p then 1%Q else old) row
          (zip_with (fun p old => if negb (Qle_bool threshold p)
                                  then 0%Q else old)
                    row ((fun _ => 0%Q) <$> row))
  = Qle_bool threshold <$> row.
Proof.
  induction row as [|p row IH]; [done|].
  cbn [fmap list_fmap zip_with]. f_equal; [by destruct (Qle_bool threshold p)|].
  exact IH.
Qed.

(** The three passes of [make_true_seg_map] amount to one comparison per
    pixel. *)
Lemma seg_map_pixels_eq (image : image) (threshold : Q) :
  make_true_seg_map image threshold
  = (fun row : list Q => Qle_bool threshold <$> row) <$> image.
Proof.
  unfold make_true_seg_map, astype_bool, assign_where, zeros_like.
  induction image as [|row image IH]; [done|].
  cbn [fmap list_fmap zip_with]. f_equal; [apply seg_map_row|exact IH].
Qed.

End SegMapFacts.

(** X13. [make_true_seg_map] keeps the shape of the image, and a pixel of
    the map is true exactly when the image is at least the threshold
    there. *)
Theorem seg_map_pixels (image : SegMap.image) (threshold : Q) :
  length (SegMap.make_true_seg_map image threshold) = length image /\
  (forall j, length <$> SegMap.make_true_seg_map image threshold !! j
             = length <$> image !! j) /\
  forall j i (b : bool),
    SegMap.make_true_seg_map image threshold !! j ≫= (fun row => row !! i)
    = Some b
    <-> exists p, image !! j ≫= (fun row => row !! i) = Some p
                  /\ (b = true <-> (threshold <= p)%Q).
Proof.
  rewrite seg_map_pixels_eq. split; [by rewrite length_fmap|]. split.
  - intros j. rewrite list_lookup_fmap.
    destruct (image !! j); [|done]. simpl. by rewrite length_fmap.
  - intros j i b. rewrite list_lookup_fmap.
    destruct (image !! j) as [row|]; simpl;
      [|split; [done|by intros (? & ? & _)]].
    rewrite list_lookup_fmap. destruct (row !! i) as [p|]; simpl;
      [|split; [done|by intros (? & ? & _)]].
    split.
    + intros [= <-]. exists p. split; [done|]. apply Qle_bool_iff.
    + intros (p' & [= <-] & Hb). f_equal.
      destruct (Qle_bool threshold p) eqn:Hp, b; try done.
      * apply Qle_bool_iff, Hb in Hp. discriminate Hp.
      * assert (Ht : Qle_bool threshold p = true)
          by (by apply Qle_bool_iff, Hb).
        congruence.
Qed.

(** X14. Raising the threshold only shrinks the segmentation map: a pixel
    that is true at a threshold is true at every lower threshold. *)
Theorem seg_map_antitone (image : SegMap.image) (t1 t2 : Q) (j i : nat) :
  (t1 <= t2)%Q ->
  SegMap.make_true_seg_map image t2 !! j ≫= (fun row => row !! i) = Some true ->
  SegMap.make_true_seg_map image t1 !! j ≫= (fun row => row !! i) = Some true.
Proof.
  intros Ht. rewrite !seg_map_pixels_eq. rewrite !list_lookup_fmap.
  destruct (image !! j) as [row|]; [|done]. simpl.
  rewrite !list_lookup_fmap. destruct (row !! i) as [p|]; [|done]. simpl.
  intros [= H2%Qle_bool_iff]. f_equal. apply Qle_bool_iff.
  by eapply Qle_trans.
Qed.

Lemma seg_map_antitone_witness :
  SegMap.make_true_seg_map [[1; 5]; [3; 7]]%Q 2 !! 0%nat
    ≫= (fun row => row !! 1%nat) = Some true.
Proof.
  apply (seg_map_antitone [[1; 5]; [3; 7]]%Q 2 4 0 1).
  - by vm_compute.
  - reflexivity.
Defined.

(** ** [scarlet_initialize] *)

Section ScarletFacts.

Import Scarlet.

Variables source blend : Type.
Variable ExtendedSource : Q * Q -> init_result source.
Variable Blend_fit : list source -> res blend.

Lemma init_loop_Ok (peaks : list (Q * Q)) (st st' : loop_state source)
    (n : nat) :
  init_loop source ExtendedSource st n peaks = Ok st' ->
  sources _ st' = sources _ st ++ omap (built_at source ExtendedSource) peaks /\
  rejected_sources _ st'
  = rejected_sources _ st
    ++ Np.where_from (no_flux source ExtendedSource) n peaks /\
  printed _ st'
  = printed _ st ++ Np.where_from (no_flux source ExtendedSource) n peaks /\
  (length (omap (built_at source ExtendedSource) peaks)
   + length (Np.where_from (no_flux source ExtendedSource) n peaks)
   = length peaks)%nat.
Proof.
  revert st n. induction peaks as [|peak peaks IH]; intros st n.
  - intros [= <-]. by rewrite !app_nil_r.
  - cbn [init_loop Np.where_from omap list_omap].
    unfold init_step, built_at, no_flux.
    destruct (ExtendedSource (peak.2, peak.1)) as [s| |e]; [| |done].
    + intros (Hs & Hr & Hp & Hlen)%IH. cbn in Hs, Hr, Hp.
      rewrite Hs, Hr, Hp, <- (assoc_L (++)). cbn [length].
      repeat split; try done. unfold built_at, no_flux in Hlen. lia.
    + intros (Hs & Hr & Hp & Hlen)%IH. cbn in Hs, Hr, Hp.
      rewrite Hs, Hr, Hp, <- !(assoc_L (++)). cbn [length].
      repeat split; try done. unfold built_at, no_flux in Hlen. lia.
Qed.

Lemma init_loop_raises (l1 l2 : list (Q * Q)) (peak : Q * Q) (e : exn)
    (st : loop_state source) (n : nat) :
  Forall (fun p => forall e', ExtendedSource (p.2, p.1) <> InitRaises e') l1 ->
  ExtendedSource (peak.2, peak.1) = InitRaises e ->
  init_loop source ExtendedSource st n (l1 ++ peak :: l2) = Raise e.
Proof.
  intros Hl1 He. revert st n.
  induction Hl1 as [|p l1 Hp _ IH]; intros st n.
  - cbn [app init_loop]. unfold init_step. by rewrite He.
  - cbn [app init_loop]. unfold init_step.
    destruct (ExtendedSource (p.2, p.1)) as [s| |e'] eqn:Hes;
      [apply IH|apply IH|by destruct (Hp e')].
Qed.

End ScarletFacts.

(** X15. [scarlet_initialize] sorts every peak into exactly one of two
    lists: the sources handed to [scarlet.Blend] are those of the peaks at
    which [ExtendedSource] succeeds, in the order of the peaks, and
    [rejected_sources] are the positions of the peaks at which it raises
    [SourceInitError], in increasing order, each printed once; together
    they account for every peak. *)
Theorem scarlet_initialize_partition {source blend : Type}
    (ExtendedSource : Q * Q -> Scarlet.init_result source)
    (Blend_fit : list source -> res blend)
    (peaks : list (Q * Q)) (b : blend) (rejected printed : list nat) :
  Scarlet.scarlet_initialize source blend ExtendedSource Blend_fit peaks
  = Ok (b, rejected, printed) ->
  Blend_fit (omap (Scarlet.built_at source ExtendedSource) peaks) = Ok b /\
  rejected = Np.where_ (Scarlet.no_flux source ExtendedSource) peaks /\
  printed = rejected /\
  (length (omap (Scarlet.built_at source ExtendedSource) peaks)
   + length rejected = length peaks)%nat.
Proof.
  unfold Scarlet.scarlet_initialize.
  destruct (Scarlet.init_loop _ _ _ _ _) as [st|e] eqn:Hloop; [|done].
  apply init_loop_Ok in Hloop as (Hs & Hr & Hp & Hlen).
  cbn in Hs, Hr, Hp. rewrite Hs.
  destruct (Blend_fit _) as [b'|e]; [|done]. intros [= <- <- <-].
  rewrite Hr, Hp. done.
Qed.

Lemma scarlet_initialize_partition_witness :
  let ES := fun c : Q * Q =>
    if Qle_bool (fst c) 0 then Scarlet.SourceInitError else Scarlet.Built c in
  let BF := fun l : list (Q * Q) => Ok (length l) in
  let peaks := [(1, 2); (3, 0); (5, 6); (7, -1)]%Q in
  BF (omap (Scarlet.built_at _ ES) peaks) = Ok 2%nat /\
  [1; 3]%nat = Np.where_ (Scarlet.no_flux _ ES) peaks /\
  [1; 3]%nat = [1; 3]%nat /\
  (length (omap (Scarlet.built_at _ ES) peaks) + length [1; 3]%nat
   = length peaks)%nat.
Proof.
  intros ES BF peaks.
  apply (scarlet_initialize_partition ES BF peaks 2%nat [1; 3]%nat [1; 3]%nat).
  reflexivity.
Defined.

(** X16. An exception of [ExtendedSource] other than [SourceInitError] is
    not caught: [scarlet_initialize] raises the first of them, and no
    blend is built or fitted. *)
Theorem scarlet_initialize_raises {source blend : Type}
    (ExtendedSource : Q * Q -> Scarlet.init_result source)
    (Blend_fit : list source -> res blend)
    (before after : list (Q * Q)) (peak : Q * Q) (e : exn) :
  Forall (fun p => forall e',
            ExtendedSource (snd p, fst p) <> Scarlet.InitRaises e') before ->
  ExtendedSource (snd peak, fst peak) = Scarlet.InitRaises e ->
  Scarlet.scarlet_initialize source blend ExtendedSource Blend_fit
    (before ++ peak :: after)
  = Raise e.
Proof.
  intros Hbefore He. unfold Scarlet.scarlet_initialize.
  by rewrite (init_loop_raises _ _ _ _ _ e _ _ Hbefore He).
Qed.

Lemma scarlet_initialize_raises_witness :
  let ES := fun c : Q * Q =>
    if Qle_bool (fst c) 0 then Scarlet.InitRaises IOError
    else Scarlet.Built c in
  let BF := fun l : list (Q * Q) => Ok (length l) in
  Scarlet.scarlet_initialize _ _ ES BF ([(1, 2)] ++ (3, 0) :: [(5, 6)])%Q
  = Raise IOError.
Proof.
  intros ES BF.
  apply (scarlet_initialize_raises ES BF [(1, 2)]%Q [(5, 6)]%Q (3, 0)%Q IOError).
  - repeat constructor. intros e'. by vm_compute.
  - reflexivity.
Defined.

(** ** [get_detections] *)

Section MetricsFacts.

Import Metrics.

Lemma detect_loop_Returns (detect : nat -> outcome centers)
    (rounds : list nat) (acc out : list centers) :
  detect_loop detect rounds acc = Returns out <->
  exists ts, out = acc ++ ts
             /\ Forall2 (fun i t => detect i = Returns t) rounds ts.
Proof.
  revert acc. induction rounds as [|i rounds IH]; intros acc;
    cbn [detect_loop].
  - split.
    + intros [= <-]. exists []. by rewrite app_nil_r.
    + intros (ts & -> & ->%Forall2_nil_inv_l). by rewrite app_nil_r.
  - destruct (detect i) as [t|f] eqn:Hi.
    + rewrite IH. split.
      * intros (ts & -> & HF). exists (t :: ts).
        rewrite <- (assoc_L (++)). split; [done|by constructor].
      * intros (ts & -> & (t' & ts' & Ht & HF & ->)%Forall2_cons_inv_l).
        rewrite Hi in Ht. injection Ht as <-.
        exists ts'. split; [by rewrite <- (assoc_L (++))|done].
    + split; [done|].
      intros (ts & _ & (t' & ts' & Ht & _)%Forall2_cons_inv_l). congruence.
Qed.




End MetricsFacts.




(** X19. [Stack_metric_params.get_detections] returns exactly when the
    batch holds a measurement catalog for every blend; it then returns
    the blend list as it is and one detected table per blend, whose rows
    are the [base_NaiveCentroid_x] and [base_NaiveCentroid_y] of the rows
    of that blend's catalog, in order. *)
Theorem stack_get_detections_returns {true_table : Type}
    (true_tables : list true_table)
    (cat : list (option (list Metrics.stack_row)))
    (tt : list true_table) (detected_tables : list (list (Q * Q))) :
  Metrics.stack_get_detections true_table (Some (true_tables, cat))
  = Metrics.Returns (tt, detected_tables)
  <-> tt = true_tables /\
      length detected_tables = length true_tables /\
      forall i p, detected_tables !! i = Some p ->
        exists rows,
          cat !! i = Some (Some rows) /\
          p = (fun r => (Metrics.base_NaiveCentroid_x r,
                         Metrics.base_NaiveCentroid_y r)) <$> rows.
Proof.
  assert (Hcent : forall i p,
    Metrics.centroids_of cat i = Metrics.Returns p
    <-> exists rows,
          cat !! i = Some (Some rows) /\
          p = (fun r => (Metrics.base_NaiveCentroid_x r,
                         Metrics.base_NaiveCentroid_y r)) <$> rows).
  { intros i p. unfold Metrics.centroids_of.
    destruct (cat !! i) as [[rows|]|]; split; try done.
    - intros [= <-]. by exists rows.
    - by intros (rows' & [= <-] & ->).
    - by intros (? & ? & _).
    - by intros (? & ? & _). }
  unfold Metrics.stack_get_detections. split.
  - destruct (Metrics.detect_loop _ _ _) as [dts|f] eqn:Hloop; [|done].
    intros [= <- <-].
    apply detect_loop_Returns in Hloop as (ts & -> & HF). simpl.
    split; [done|]. split.
    + apply Forall2_length in HF. by rewrite length_seq in HF.
    + intros i p Hp.
      destruct (Forall2_lookup_r _ _ _ _ _ HF Hp) as (k & Hk & Hret).
      apply lookup_seq in Hk as [-> _]. by apply Hcent.
  - intros (-> & Hlen & Hall).
    assert (Hloop : Metrics.detect_loop (Metrics.centroids_of cat)
                      (seq 0 (length true_tables)) []
                    = Metrics.Returns detected_tables).
    { apply detect_loop_Returns. exists detected_tables. split; [done|].
      apply Forall2_same_length_lookup_2; [by rewrite length_seq|].
      intros i k p [-> _]%lookup_seq Hp. by apply Hcent, Hall. }
    by rewrite Hloop.
Qed.
